(** * webchan: a shallow embedding of src/webchan.go (the package and its error types)

    Scope of the model.
    - Go types that may be registered: int (64 bit), string, bool and
      (nested) struct types given by their %T name and field list.
      Values carry their dynamic type, as an [interface{}] does.
    - The JSON codec ([encoding/json]) is modelled at the level of JSON
      values: the stream carries a sequence of self-delimited JSON values.
      Strings are taken to be text (the encoder's replacement of invalid
      UTF-8 is not modelled); numbers are integral literals.
    - The connection is external: each write succeeds or fails as the
      connection decides (an explicit fault list), and each read yields a
      value, a transport or syntax error, or the end condition.
    - The goroutines are modelled one loop iteration at a time
      ([send_iter], [recv_iter]); the environment (callers, the peer)
      acts between iterations. *)

From Stdlib Require Import ZArith Lia Ascii.
From stdpp Require Import base list gmap strings.

Set Warnings "-register-all".
Open Scope Z_scope.

(* ------------------------------------------------------------------ *)
(** ** Go types and values *)

Inductive ty : Type :=
| TInt
| TString
| TBool
| TStruct (name : string) (fields : list (string * ty)).

Inductive val : Type :=
| VInt (z : Z)
| VString (s : string)
| VBool (b : bool)
| VStruct (name : string) (fields : list (string * val)).

(** [reflect.TypeOf] *)
Fixpoint typeof (v : val) : ty :=
  match v with
  | VInt _ => TInt
  | VString _ => TString
  | VBool _ => TBool
  | VStruct n fs => TStruct n (map (fun kv => (kv.1, typeof kv.2)) fs)
  end.

(** [fmt.Sprintf("%T", v)] *)
Definition type_string (t : ty) : string :=
  match t with
  | TInt => "int"
  | TString => "string"
  | TBool => "bool"
  | TStruct n _ => n
  end.

(** The zero value [reflect.New(t).Elem()] starts from. *)
Fixpoint zero (t : ty) : val :=
  match t with
  | TInt => VInt 0
  | TString => VString ""
  | TBool => VBool false
  | TStruct n fs => VStruct n (map (fun kt => (kt.1, zero kt.2)) fs)
  end.

(** Type identity as [reflect.Type] comparison with [==]. *)
Fixpoint fields_eqb (eqb : ty -> ty -> bool) (fs gs : list (string * ty)) : bool :=
  match fs, gs with
  | [], [] => true
  | (k, t) :: fs', (l, u) :: gs' => String.eqb k l && eqb t u && fields_eqb eqb fs' gs'
  | _, _ => false
  end.

Fixpoint ty_eqb (a b : ty) : bool :=
  match a, b with
  | TInt, TInt | TString, TString | TBool, TBool => true
  | TStruct n fs, TStruct m gs => String.eqb n m && fields_eqb ty_eqb fs gs
  | _, _ => false
  end.

(** A struct field is exported when its name starts with an upper-case
    letter (ASCII letters only). *)
Definition exported (k : string) : bool :=
  match k with
  | String c _ => Ascii.leb "A"%char c && Ascii.leb c "Z"%char
  | EmptyString => false
  end.

(* ------------------------------------------------------------------ *)
(** ** Errors (sendError, recvError and the Go errors webchan meets) *)

Inductive goerr : Type :=
| ErrEOF                       (* io.EOF *)
| ErrUnexpectedEOF             (* io.ErrUnexpectedEOF *)
| ErrClosed                    (* net.ErrClosed *)
| ErrSyntax                    (* *json.SyntaxError *)
| ErrUnmarshalType             (* *json.UnmarshalTypeError *)
| ErrMsg (s : string)          (* fmt.Errorf / any other transport error *)
| ErrWrap (op : string) (inner : goerr). (* e.g. *net.OpError wrapping inner *)

(** [errors.Is(err, target)] for a sentinel target. *)
Fixpoint errors_is (e target : goerr) : bool :=
  match e, target with
  | ErrEOF, ErrEOF | ErrUnexpectedEOF, ErrUnexpectedEOF
  | ErrClosed, ErrClosed | ErrSyntax, ErrSyntax
  | ErrUnmarshalType, ErrUnmarshalType => true
  | ErrWrap _ inner, _ => errors_is inner target
  | _, _ => false
  end.

(** [errors.Is(err, net.ErrClosed) || errors.Is(err, io.EOF)] *)
Definition closed_class (e : goerr) : bool :=
  errors_is e ErrClosed || errors_is e ErrEOF.

(** [*sendError] and [*recvError] *)
Inductive werror : Type :=
| SendError (e : goerr)
| RecvError (e : goerr).

(* ------------------------------------------------------------------ *)
(** ** JSON values and the codec *)

Inductive json : Type :=
| JNull
| JBool (b : bool)
| JNum (z : Z)
| JStr (s : string)
| JArr (l : list json)
| JObj (kvs : list (string * json)).

(** [json.Marshal] on the modelled values: struct fields in declaration
    order, unexported fields left out. *)
Fixpoint encode_fields (enc : val -> json) (fs : list (string * val)) : list (string * json) :=
  match fs with
  | [] => []
  | (k, x) :: fs' => if exported k then (k, enc x) :: encode_fields enc fs' else encode_fields enc fs'
  end.

Fixpoint encode (v : val) : json :=
  match v with
  | VInt z => JNum z
  | VString s => JStr s
  | VBool b => JBool b
  | VStruct _ fs => JObj (encode_fields encode fs)
  end.

Definition lower_ascii (c : Ascii.ascii) : Ascii.ascii :=
  if Ascii.leb "A"%char c && Ascii.leb c "Z"%char
  then Ascii.ascii_of_nat (Ascii.nat_of_ascii c + 32)
  else c.

Fixpoint lower (s : string) : string :=
  match s with
  | EmptyString => EmptyString
  | String c s' => String (lower_ascii c) (lower s')
  end.

(** The decoder looks a JSON key up among the exported fields: an exact
    match first, otherwise a case-insensitive one. *)
Definition field_for (fs : list (string * val)) (key : string) : option string :=
  match list_find (fun kv => kv.1 = key /\ exported kv.1 = true) fs with
  | Some (_, kv) => Some kv.1
  | None =>
      match list_find (fun kv => lower kv.1 = lower key /\ exported kv.1 = true) fs with
      | Some (_, kv) => Some kv.1
      | None => None
      end
  end.

Fixpoint set_field (fs : list (string * val)) (k : string) (x : val) : list (string * val) :=
  match fs with
  | [] => []
  | (l, y) :: fs' => if String.eqb l k then (l, x) :: fs' else (l, y) :: set_field fs' k x
  end.

Fixpoint get_field (fs : list (string * val)) (k : string) : option val :=
  match fs with
  | [] => None
  | (l, y) :: fs' => if String.eqb l k then Some y else get_field fs' k
  end.

Definition int64_range (z : Z) : bool := (- 2 ^ 63 <=? z) && (z <? 2 ^ 63).

(** [d.object] into the struct [VStruct n fs]: the object's members in
    order, each decoded into the field it names; unknown keys are skipped. *)
Fixpoint decode_fields (dec : val -> json -> option val) (n : string)
    (kvs : list (string * json)) (fs : list (string * val)) : option val :=
  match kvs with
  | [] => Some (VStruct n fs)
  | (key, j') :: kvs' =>
      match field_for fs key with
      | None => decode_fields dec n kvs' fs
      | Some k =>
          match get_field fs k with
          | Some x =>
              match dec x j' with
              | Some x' => decode_fields dec n kvs' (set_field fs k x')
              | None => None (* the first field error is returned *)
              end
          | None => decode_fields dec n kvs' fs
          end
      end
  end.

(** [d.value(j, cur)]: decode [j] into the existing value [cur] (the
    decoder writes into the freshly allocated zero value). [None] is an
    [UnmarshalTypeError]; webchan discards the value then, so the partial
    result of a failed decode is not kept. *)
Fixpoint decode_into (cur : val) (j : json) : option val :=
  match j, cur with
  | JNull, _ => Some cur
  | JNum z, VInt _ => if int64_range z then Some (VInt z) else None
  | JStr s, VString _ => Some (VString s)
  | JBool b, VBool _ => Some (VBool b)
  | JObj kvs, VStruct n fs => decode_fields decode_into n kvs fs
  | _, _ => None
  end.

(** [dec.Decode(&typeName)] where [typeName] starts as "". *)
Definition unmarshal_string (j : json) : option string :=
  match j with
  | JNull => Some ""
  | JStr s => Some s
  | _ => None
  end.

(* ------------------------------------------------------------------ *)
(** ** Channels, the connection and the endpoint state *)

(** The registry [allowedTypes map[string]reflect.Type]. *)
Abbreviation registry := (gmap string ty).

(** [wc.Error]: [make(chan error, 100)], together with what the process
    prints on stdout. The caller may drain [eq_items] between steps. *)
Definition error_cap : nat := 100.

Record errchan := mkErrchan { eq_items : list werror; eq_stdout : list string }.

Definition tryPushError (q : errchan) (err : werror) : errchan :=
  if Nat.ltb (length (eq_items q)) error_cap
  then mkErrchan (eq_items q ++ [err]) (eq_stdout q)
  else mkErrchan (eq_items q)
         (eq_stdout q ++ ["Error channel full, should probably check it more frequently"]).

(** The write half of the connection as [wc.encoder] sees it: the JSON
    values that reached the wire, and the outcome the connection gives the
    next writes ([Some e]: the write fails with [e]; once the list is used
    up every write succeeds). *)
Record wconn := mkWconn { w_out : list json; w_faults : list (option goerr) }.

(** [wc.encoder.Encode(x)] (marshalling the modelled values never fails).
    A write either puts the whole value on the wire or fails and puts
    nothing: a socket [Write] that sends a prefix before failing, and the
    error [json.Encoder] keeps and returns for every later [Encode] after a
    failed one, are not modelled; the fault list stands for the outcomes
    the connection gives, whatever they are. *)
Definition conn_encode (c : wconn) (j : json) : wconn * option goerr :=
  match w_faults c with
  | Some e :: fs => (mkWconn (w_out c) fs, Some e)
  | None :: fs => (mkWconn (w_out c ++ [j]) fs, None)
  | [] => (mkWconn (w_out c ++ [j]) [], None)
  end.

(** What the read half of the connection delivers to [wc.decoder]. *)
Inductive rd_event : Type :=
| RVal (j : json)       (* a complete JSON value *)
| RErr (e : goerr).     (* a read error or malformed input *)

(** [wc.decoder]: pending input, what a read returns once the pending input
    is used up ([None]: the read blocks), and the decoder's sticky error
    ([dec.err]: after a read or syntax error every Decode returns it). *)
Record decoder := mkDecoder { d_in : list rd_event; d_end : option goerr; d_err : option goerr }.

Inductive read_result := RdVal (j : json) | RdErr (e : goerr) | RdBlock.

(** [dec.readValue()] *)
Definition dec_read (d : decoder) : decoder * read_result :=
  match d_err d with
  | Some e => (d, RdErr e)
  | None =>
      match d_in d with
      | RVal j :: rest => (mkDecoder rest (d_end d) None, RdVal j)
      | RErr e :: rest => (mkDecoder rest (d_end d) (Some e), RdErr e)
      | [] =>
          match d_end d with
          | None => (d, RdBlock)
          | Some e => (mkDecoder [] (Some e) (Some e), RdErr e)
          end
      end
  end.

(* ------------------------------------------------------------------ *)
(** ** getAllowedTypeName and createTypeInterfaceReflectPointer *)

(** [for k, v := range wc.allowedTypes { if v == t { return k, true } }]:
    Go picks the iteration order of a map anew for each [range]; [order]
    is the order this [range] happens to use. *)
Fixpoint range_find (order : list string) (allowed : registry) (t : ty) : option string :=
  match order with
  | [] => None
  | k :: ks =>
      match allowed !! k with
      | Some u => if ty_eqb u t then Some k else range_find ks allowed t
      | None => range_find ks allowed t
      end
  end.

Definition getAllowedTypeName (order : list string) (allowed : registry) (data : val) : option string :=
  range_find order allowed (typeof data).

(** The fresh instance [reflect.New(t)] points to, as its zero value. *)
Definition createTypeInterfaceReflectPointer (allowed : registry) (typeName : string) : option val :=
  match allowed !! typeName with
  | Some t => Some (zero t)
  | None => None
  end.

(* ------------------------------------------------------------------ *)
(** ** The send goroutine *)

(** Its view of the endpoint: the [wc.Send] buffer and whether [wc.Send] is
    closed, the write half of the connection, and how many iterations it
    has run (which indexes the map iteration orders). *)
Record outbound := mkOutbound { o_q : list val; o_closed : bool; o_conn : wconn; o_iter : nat }.

Inductive sstatus := SRunning | SBlocked | STerminated | SPanic (p : werror).

Definition type_not_allowed_send (data : val) : goerr :=
  ErrMsg ("type not allowed: " ++ type_string (typeof data)).

(** One iteration of the [for] loop of the send goroutine. *)
Definition send_iter (allowed : registry) (ord : nat -> list string)
    (o : outbound) (q : errchan) : outbound * errchan * sstatus :=
  match o_q o with
  | [] => if o_closed o then (o, q, STerminated) else (o, q, SBlocked)
  | data :: rest =>
      match getAllowedTypeName (ord (o_iter o)) allowed data with
      | None =>
          (mkOutbound rest (o_closed o) (o_conn o) (S (o_iter o)), q,
           SPanic (SendError (type_not_allowed_send data)))
      | Some typeName =>
          let '(c1, err1) := conn_encode (o_conn o) (JStr typeName) in
          let '(c2, err) := match err1 with
                            | None => conn_encode c1 (encode data)
                            | Some e => (c1, Some e)
                            end in
          let o' := mkOutbound rest (o_closed o) c2 (S (o_iter o)) in
          match err with
          | Some e => (o', tryPushError q (SendError e), SRunning)
          | None => (o', q, SRunning)
          end
      end
  end.

Fixpoint send_run (allowed : registry) (ord : nat -> list string) (fuel : nat)
    (o : outbound) (q : errchan) : outbound * errchan * sstatus :=
  match fuel with
  | O => (o, q, SRunning)
  | S n =>
      match send_iter allowed ord o q with
      | (o', q', SRunning) => send_run allowed ord n o' q'
      | r => r
      end
  end.

(* ------------------------------------------------------------------ *)
(** ** The recv goroutine *)

(** Its view: the decoder, the values it has pushed on [wc.Recv] (the
    caller drains them; the push blocking on a full [wc.Recv] is not
    modelled) and how many times [close(wc.Recv)] has run. *)
Record inbound := mkInbound { i_dec : decoder; i_recv : list val; i_recv_closes : nat }.

Inductive rstatus := RRunning | RBlocked | RStopped.

(** [defer close(wc.Recv)] running as the goroutine returns. *)
Definition recv_return (d : decoder) (i : inbound) : inbound :=
  mkInbound d (i_recv i) (S (i_recv_closes i)).

Definition with_dec (d : decoder) (i : inbound) : inbound :=
  mkInbound d (i_recv i) (i_recv_closes i).

(** [if errors.Is(err, net.ErrClosed) || errors.Is(err, io.EOF) { return }
    else { wc.tryPushError(&recvError{err}) }; continue] *)
Definition recv_fail (d : decoder) (e : goerr) (i : inbound) (q : errchan)
    : inbound * errchan * rstatus :=
  if closed_class e then (recv_return d i, q, RStopped)
  else (with_dec d i, tryPushError q (RecvError e), RRunning).

(** One iteration of the [for] loop of the recv goroutine; [shutdown] says
    whether [wc.closeRecvChan] is closed. When a read blocks the iteration
    is taken back: it runs again once the connection has more to say. *)
Definition recv_iter (allowed : registry) (shutdown : bool)
    (i : inbound) (q : errchan) : inbound * errchan * rstatus :=
  if shutdown then (recv_return (i_dec i) i, q, RStopped)
  else
    match dec_read (i_dec i) with
    | (_, RdBlock) => (i, q, RBlocked)
    | (d1, RdErr e) => recv_fail d1 e i q
    | (d1, RdVal j) =>
        match unmarshal_string j with
        | None => (with_dec d1 i, tryPushError q (RecvError ErrUnmarshalType), RRunning)
        | Some typeName =>
            match createTypeInterfaceReflectPointer allowed typeName with
            | None =>
                (with_dec d1 i,
                 tryPushError q (RecvError (ErrMsg ("type not allowed: " ++ typeName))),
                 RRunning)
            | Some data =>
                match dec_read d1 with
                | (_, RdBlock) => (i, q, RBlocked)
                | (d2, RdErr e) => recv_fail d2 e i q
                | (d2, RdVal j2) =>
                    match decode_into data j2 with
                    | None => (with_dec d2 i, tryPushError q (RecvError ErrUnmarshalType), RRunning)
                    | Some v => (mkInbound d2 (i_recv i ++ [v]) (i_recv_closes i), q, RRunning)
                    end
                end
            end
        end
    end.

Fixpoint recv_run (allowed : registry) (shutdown : bool) (fuel : nat)
    (i : inbound) (q : errchan) : inbound * errchan * rstatus :=
  match fuel with
  | O => (i, q, RRunning)
  | S n =>
      match recv_iter allowed shutdown i q with
      | (i', q', RRunning) => recv_run allowed shutdown n i' q'
      | r => r
      end
  end.

(* ------------------------------------------------------------------ *)
(** ** The WebChan value, its constructors and Close *)

(** A [*WebChan] with the state of its two goroutines. [ep_shutdown] says
    whether [closeRecvChan] is closed; [ep_soc_closes] counts the calls of
    [wc.soc.Close()]. *)
Record endpoint := mkEndpoint {
  ep_allowed : registry;
  ep_send_cap : nat;
  ep_recv_cap : nat;
  ep_err_cap : nat;
  ep_out : outbound;
  ep_in : inbound;
  ep_err : errchan;
  ep_shutdown : bool;
  ep_soc_closes : nat }.

(** [make(chan T, n)], as [runtime.makechan] does it on a 64-bit platform
    (linux/amd64): it panics ([None]) when the buffer of [n] elements of
    [elem_size] bytes is larger than [maxAlloc - hchanSize] (a product
    that overflows a [uintptr] is larger too) or when [n] is negative.
    Running out of memory while allocating an allowed buffer is a fatal
    runtime error, outside the model. *)
Definition maxAlloc : Z := 2 ^ 48.
Definition hchanSize : Z := 96.

(** The size of an interface value ([interface{}], [error]). *)
Definition iface_size : Z := 16.

Definition make_chan (elem_size n : Z) : option nat :=
  if (maxAlloc - hchanSize <? elem_size * n) || (n <? 0) then None else Some (Z.to_nat n).

Definition NewNamedWebChan (c : wconn) (d : decoder) (bufLength : Z)
    (allowedTypes : gmap string val) : option endpoint :=
  let allowedTypesReflect := fmap typeof allowedTypes in
  match make_chan iface_size bufLength, make_chan iface_size bufLength, make_chan iface_size 100 with
  | Some sc, Some rc, Some ec =>
      Some (mkEndpoint allowedTypesReflect sc rc ec
              (mkOutbound [] false c 0) (mkInbound d [] 0) (mkErrchan [] [])
              false 0)
  | _, _, _ => None
  end.

(** [allowedTypesMap[fmt.Sprintf("%T", v)] = v] for each prototype. *)
Definition allowed_types_map (allowedTypes : list val) : gmap string val :=
  fold_left (fun m v => <[type_string (typeof v) := v]> m) allowedTypes ∅.

Definition NewWebChan (c : wconn) (d : decoder) (bufLength : Z) (allowedTypes : list val)
    : option endpoint :=
  NewNamedWebChan c d bufLength (allowed_types_map allowedTypes).

(** [close(ch)]: panics ([None]) on a channel that is already closed. *)
Definition close_chan (closed : bool) : option bool :=
  if closed then None else Some true.

(** [wc.Close()]. [wc.soc.Close()] is recorded as a count only; what it
    does to later writes of the send goroutine (they fail with
    [net.ErrClosed]) is left to the fault list of the write half. *)
Definition Close (wc : endpoint) : option endpoint :=
  if ep_shutdown wc then Some wc      (* case _, ok := <-wc.closeRecvChan: !ok *)
  else
    match close_chan (ep_shutdown wc) with
    | None => None
    | Some sd =>
        match close_chan (o_closed (ep_out wc)) with
        | None => None
        | Some sc =>
            let o := ep_out wc in
            Some (mkEndpoint (ep_allowed wc) (ep_send_cap wc) (ep_recv_cap wc) (ep_err_cap wc)
                    (mkOutbound (o_q o) sc (o_conn o) (o_iter o)) (ep_in wc) (ep_err wc)
                    sd (S (ep_soc_closes wc)))
        end
    end.

Fixpoint close_n (n : nat) (wc : endpoint) : option endpoint :=
  match n with
  | O => Some wc
  | S m => match Close wc with Some wc' => close_n m wc' | None => None end
  end.

(** A caller's [wc.Send <- v]. *)
Inductive chan_send_result := Sent (q : list val) | SendBlocks | SendPanics.

Definition chan_send (closed : bool) (cap : nat) (q : list val) (v : val) : chan_send_result :=
  if closed then SendPanics                    (* send on closed channel *)
  else if Nat.ltb (length q) cap then Sent (q ++ [v]) else SendBlocks.

Definition send_on (wc : endpoint) (v : val) : chan_send_result :=
  chan_send (o_closed (ep_out wc)) (ep_send_cap wc) (o_q (ep_out wc)) v.

(** Two endpoints on the two ends of one connection. Connection model:
    once one end is closed, reads on it fail with a closed-connection
    error and reads on the other end return [io.EOF] after the data
    already written. *)
Record system := mkSystem { sys_a : endpoint; sys_b : endpoint }.

Definition set_read_end (e : goerr) (wc : endpoint) : endpoint :=
  let i := ep_in wc in
  let d := i_dec i in
  mkEndpoint (ep_allowed wc) (ep_send_cap wc) (ep_recv_cap wc) (ep_err_cap wc) (ep_out wc)
    (mkInbound (mkDecoder (d_in d) (Some e) (d_err d)) (i_recv i) (i_recv_closes i))
    (ep_err wc) (ep_shutdown wc) (ep_soc_closes wc).

(** Endpoint A calls [Close()]. *)
Definition close_a (s : system) : option system :=
  match Close (sys_a s) with
  | None => None
  | Some a' =>
      if Nat.ltb (ep_soc_closes (sys_a s)) (ep_soc_closes a')
      then Some (mkSystem (set_read_end (ErrWrap "read" ErrClosed) a') (set_read_end ErrEOF (sys_b s)))
      else Some (mkSystem a' (sys_b s))
  end.

Fixpoint close_a_n (n : nat) (s : system) : option system :=
  match n with
  | O => Some s
  | S m => match close_a s with Some s' => close_a_n m s' | None => None end
  end.

(** The peer's recv goroutine, run for [fuel] iterations. *)
Definition peer_recv_run (fuel : nat) (s : system) : inbound * errchan * rstatus :=
  let b := sys_b s in recv_run (ep_allowed b) (ep_shutdown b) fuel (ep_in b) (ep_err b).

(* ------------------------------------------------------------------ *)
(** ** Valid instances and frames *)

(** A valid instance: every int fits in 64 bits (as a Go [int] does), a
    struct has distinct field names (as Go requires), and its unexported
    fields, which JSON does not carry, hold their zero value. *)
Fixpoint valid_fields (valid : val -> Prop) (fs : list (string * val)) : Prop :=
  match fs with
  | [] => True
  | (k, x) :: fs' => (if exported k then valid x else x = zero (typeof x)) /\ valid_fields valid fs'
  end.

Fixpoint valid_val (v : val) : Prop :=
  match v with
  | VInt z => int64_range z = true
  | VString _ | VBool _ => True
  | VStruct _ fs => NoDup (map fst fs) /\ valid_fields valid_val fs
  end.

(** The two JSON values the send goroutine writes for one value. *)
Definition frame (typeName : string) (data : val) : list json := [JStr typeName; encode data].

(** The input the peer's decoder sees for a sequence of frames. *)
Definition frames_input (frames : list (string * json)) : list rd_event :=
  concat (map (fun kj => [RVal (JStr kj.1); RVal kj.2]) frames).

(** The values the recv goroutine pushes for those frames. *)
Definition frames_decoded (allowed : registry) (frames : list (string * json)) : list val :=
  omap (fun kj => t ← allowed !! kj.1; decode_into (zero t) kj.2) frames.

(** The prototype NewWebChan keeps under the name [k]: the last one whose
    %T name is [k]. *)
Fixpoint last_named (k : string) (protos : list val) : option val :=
  match protos with
  | [] => None
  | v :: vs =>
      match last_named k vs with
      | Some w => Some w
      | None => if String.eqb (type_string (typeof v)) k then Some v else None
      end
  end.

(** Input made only of complete JSON values (no read or syntax error). *)
Definition is_value_event (ev : rd_event) : bool :=
  match ev with RVal _ => true | RErr _ => false end.

(** Which of the two error kinds a reported error is. *)
Definition is_send_error (w : werror) : bool :=
  match w with SendError _ => true | RecvError _ => false end.

Definition is_recv_error (w : werror) : bool :=
  match w with RecvError _ => true | SendError _ => false end.

(** [n] calls of [tryPushError q err] in a row. *)
Definition push_n (q : errchan) (err : werror) (n : nat) : errchan :=
  Nat.iter n (fun q' => tryPushError q' err) q.

(** The frames whose name is registered but whose payload does not
    decode into the type registered under it. *)
Definition bad_payloads (allowed : registry) (frames : list (string * json)) : list (string * json) :=
  List.filter (fun kj => match allowed !! kj.1 with
                         | Some t => match decode_into (zero t) kj.2 with Some _ => false | None => true end
                         | None => false
                         end) frames.

(* ------------------------------------------------------------------ *)
(** ** Sample data: the README's test *)

Definition testType_ty : ty := TStruct "webchan.testType" [("A", TInt); ("B", TString)].
Definition testType_val : val := VStruct "webchan.testType" [("A", VInt 42); ("B", VString "Hello")].
Definition empty_wconn : wconn := mkWconn [] [].
Definition open_decoder : decoder := mkDecoder [] None None.
Definition sample_allowed : gmap string val :=
  allowed_types_map [VString "strings"; VStruct "webchan.testType" [("A", VInt 0); ("B", VString "")]].

Definition sample_reg : registry := typeof <$> sample_allowed.
Definition sample_ord (n : nat) : list string := fst <$> map_to_list sample_reg.
Definition sample_errs : errchan := mkErrchan [] [].
Definition sample_wc : endpoint :=
  mkEndpoint sample_reg 10 10 100 (mkOutbound [] false empty_wconn 0)
    (mkInbound open_decoder [] 0) sample_errs false 0.
Definition sample_frames : list (string * json) :=
  [("string", JStr "Hello"); ("webchan.testType", encode testType_val)].

Example sample_allowed_keys :
  (fmap typeof sample_allowed : registry) !! "webchan.testType" = Some testType_ty.
Proof. reflexivity. Qed.

Definition sample_peer : endpoint :=
  mkEndpoint sample_reg 10 10 100 (mkOutbound [] false empty_wconn 0)
    (mkInbound (mkDecoder (frames_input sample_frames) None None) [] 0) sample_errs false 0.

(** A registry with two names for one type, and a connection whose
    first write fails. *)
Definition sample_named : gmap string val :=
  {[ "count" := VInt 0; "greeting" := VString ""; "name" := VString "" ]}.
Definition sample_faulty : wconn := mkWconn [] [Some (ErrMsg "broken pipe")].

Example sample_roundtrip : decode_into (zero testType_ty) (encode testType_val) = Some testType_val.
Proof. reflexivity. Qed.

(* ------------------------------------------------------------------ *)
(** ** The codec round trip *)

Section val_ind_nested.
  Variable P : val -> Prop.
  Hypothesis HInt : forall z, P (VInt z).
  Hypothesis HString : forall s, P (VString s).
  Hypothesis HBool : forall b, P (VBool b).
  Hypothesis HStruct : forall n fs, Forall (fun kv => P kv.2) fs -> P (VStruct n fs).

Fixpoint val_ind' (v : val) : P v :=
    match v with
    | VInt z => HInt z
    | VString s => HString s
    | VBool b => HBool b
    | VStruct n fs =>
        HStruct n fs
          ((fix go (fs : list (string * val)) : Forall (fun kv => P kv.2) fs :=
              match fs with
              | [] => List.Forall_nil _
              | kv :: fs' => @List.Forall_cons _ (fun kv => P kv.2) kv fs' (val_ind' kv.2) (go fs')
              end) fs)
    end.
End val_ind_nested.

Lemma field_for_exact (fs : list (string * val)) (k : string) (x : val) :
  (k, x) ∈ fs -> exported k = true -> field_for fs k = Some k.
Proof.
  intros Hin Hexp. unfold field_for.
  destruct (list_find _ fs) as [[i kv]|] eqn:E.
  - apply list_find_Some in E as (_ & [Hk _] & _). by rewrite Hk.
  - apply list_find_None in E. rewrite Forall_forall in E.
    exfalso. apply (E (k, x) Hin). simpl. done.
Qed.

Lemma get_field_app (pre rest : list (string * val)) (k : string) (y : val) :
  k ∉ map fst pre -> get_field (pre ++ (k, y) :: rest) k = Some y.
Proof.
  induction pre as [|[l z] pre IH]; simpl; intros Hn.
  - by rewrite String.eqb_refl.
  - destruct (String.eqb_spec l k) as [->|Hne].
    + exfalso. apply Hn. left.
    + apply IH. intros Hin. apply Hn. by right.
Qed.

Lemma set_field_app (pre rest : list (string * val)) (k : string) (y x : val) :
  k ∉ map fst pre -> set_field (pre ++ (k, y) :: rest) k x = pre ++ (k, x) :: rest.
Proof.
  induction pre as [|[l z] pre IH]; simpl; intros Hn.
  - by rewrite String.eqb_refl.
  - destruct (String.eqb_spec l k) as [->|Hne].
    + exfalso. apply Hn. left.
    + f_equal. apply IH. intros Hin. apply Hn. by right.
Qed.

Lemma decode_fields_roundtrip (n : string) (post : list (string * val)) :
  forall pre : list (string * val),
  NoDup (map fst (pre ++ post)) ->
  Forall (fun kv => exported kv.1 = true ->
                    decode_into (zero (typeof kv.2)) (encode kv.2) = Some kv.2) post ->
  Forall (fun kv => exported kv.1 = false -> kv.2 = zero (typeof kv.2)) post ->
  decode_fields decode_into n (encode_fields encode post)
    (pre ++ map (fun kv => (kv.1, zero (typeof kv.2))) post) = Some (VStruct n (pre ++ post)).
Proof.
  induction post as [|[k x] post IH]; intros pre Hnd Hdec Hzero; simpl.
  - by rewrite !app_nil_r.
  - apply Forall_cons in Hdec as [Hdx Hdec]. apply Forall_cons in Hzero as [Hzx Hzero].
    simpl in Hdx, Hzx.
    rewrite map_app in Hnd. simpl in Hnd.
    assert (Hk : k ∉ map fst pre).
    { intros Hin. apply NoDup_app in Hnd as (_ & Hdis & _).
      apply (Hdis k Hin). left. }
    destruct (exported k) eqn:Ek.
    + cbn [decode_fields].
      rewrite (field_for_exact _ k (zero (typeof x))); [|apply elem_of_app; right; left|done].
      rewrite get_field_app by done.
      rewrite Hdx by done.
      rewrite set_field_app by done.
      replace (pre ++ (k, x) :: map (fun kv => (kv.1, zero (typeof kv.2))) post)
        with ((pre ++ [(k, x)]) ++ map (fun kv => (kv.1, zero (typeof kv.2))) post)
        by (by rewrite <- app_assoc).
      replace (pre ++ (k, x) :: post) with ((pre ++ [(k, x)]) ++ post)
        by (by rewrite <- app_assoc).
      apply IH; [|done|done].
      rewrite <- app_assoc, map_app. done.
    + rewrite <- Hzx by done.
      replace (pre ++ (k, x) :: map (fun kv => (kv.1, zero (typeof kv.2))) post)
        with ((pre ++ [(k, x)]) ++ map (fun kv => (kv.1, zero (typeof kv.2))) post)
        by (by rewrite <- app_assoc).
      replace (pre ++ (k, x) :: post) with ((pre ++ [(k, x)]) ++ post)
        by (by rewrite <- app_assoc).
      apply IH; [|done|done].
      rewrite <- app_assoc, map_app. done.
Qed.

Lemma decode_encode (v : val) :
  valid_val v -> decode_into (zero (typeof v)) (encode v) = Some v.
Proof.
  induction v as [z|s|b|n fs IH] using val_ind'; simpl; intros Hv.
  - by rewrite Hv.
  - done.
  - done.
  - destruct Hv as [Hnd Hvf].
    rewrite map_map. simpl.
    apply (decode_fields_roundtrip n fs []); [done| |].
    + clear Hnd. induction fs as [|[k x] fs IHfs]; [constructor|].
      simpl in Hvf. destruct Hvf as [Hx Hvf].
      apply Forall_cons in IH as [IHx IH].
      constructor.
      * simpl. intros Ek. rewrite Ek in Hx. by apply IHx.
      * by apply IHfs.
    + clear Hnd IH. induction fs as [|[k x] fs IHfs]; [constructor|].
      simpl in Hvf. destruct Hvf as [Hx Hvf].
      constructor.
      * simpl. intros Ek. by rewrite Ek in Hx.
      * by apply IHfs.
Qed.

(* ------------------------------------------------------------------ *)
(** ** Type identity *)

Section ty_ind_nested.
  Variable P : ty -> Prop.
  Hypothesis HInt : P TInt.
  Hypothesis HString : P TString.
  Hypothesis HBool : P TBool.
  Hypothesis HStruct : forall n fs, Forall (fun kt => P kt.2) fs -> P (TStruct n fs).

Fixpoint ty_ind' (t : ty) : P t :=
    match t with
    | TInt => HInt
    | TString => HString
    | TBool => HBool
    | TStruct n fs =>
        HStruct n fs
          ((fix go (fs : list (string * ty)) : Forall (fun kt => P kt.2) fs :=
              match fs with
              | [] => List.Forall_nil _
              | kt :: fs' => @List.Forall_cons _ (fun kt => P kt.2) kt fs' (ty_ind' kt.2) (go fs')
              end) fs)
    end.
End ty_ind_nested.

Lemma ty_eqb_refl (t : ty) : ty_eqb t t = true.
Proof.
  induction t as [| | |n fs IH] using ty_ind'; try done.
  simpl. rewrite String.eqb_refl. simpl.
  induction fs as [|[k u] fs IHfs]; [done|].
  apply Forall_cons in IH as [Hu IH]. simpl in Hu |- *.
  by rewrite String.eqb_refl, Hu, IHfs.
Qed.

Lemma ty_eqb_eq (t u : ty) : ty_eqb t u = true -> t = u.
Proof.
  revert u. induction t as [| | |n fs IH] using ty_ind'; intros [| | |m gs]; try done.
  simpl. intros [Hn Hf]%andb_prop. apply String.eqb_eq in Hn as ->. f_equal.
  revert gs Hf. induction fs as [|[k t] fs IHfs]; intros [|[l w] gs]; try done.
  apply Forall_cons in IH as [Ht IH]. simpl in Ht.
  simpl. intros [[Hk Htw]%andb_prop Hr]%andb_prop.
  apply String.eqb_eq in Hk as ->. rewrite (Ht w Htw). f_equal. by apply IHfs.
Qed.

Lemma range_find_sound (order : list string) (allowed : registry) (t : ty) (k : string) :
  range_find order allowed t = Some k -> allowed !! k = Some t /\ k ∈ order.
Proof.
  induction order as [|k' ks IH]; simpl; [done|].
  destruct (allowed !! k') as [u|] eqn:E.
  - destruct (ty_eqb u t) eqn:Eu.
    + intros [= <-]. apply ty_eqb_eq in Eu as <-. split; [done|left].
    + intros H. destruct (IH H) as [? ?]. split; [done|by right].
  - intros H. destruct (IH H) as [? ?]. split; [done|by right].
Qed.

Lemma range_find_complete (order : list string) (allowed : registry) (t : ty) (k : string) :
  allowed !! k = Some t -> k ∈ order -> exists k', range_find order allowed t = Some k'.
Proof.
  intros Hk. induction order as [|k' ks IH]; simpl; [by intros ?%elem_of_nil|].
  intros [->|Hin]%elem_of_cons.
  - rewrite Hk, ty_eqb_refl. eauto.
  - destruct (allowed !! k') as [u|]; [destruct (ty_eqb u t); [eauto|]|]; by apply IH.
Qed.

Lemma range_find_none (order : list string) (allowed : registry) (t : ty) :
  (forall k, allowed !! k <> Some t) -> range_find order allowed t = None.
Proof.
  intros H. destruct (range_find order allowed t) as [k|] eqn:E; [|done].
  apply range_find_sound in E as [Hk _]. by destruct (H k).
Qed.

(** The map iteration yields the first visited name registered for [t]. *)
Lemma range_find_first (order pre post : list string) (allowed : registry) (t : ty) (k : string) :
  order = pre ++ k :: post ->
  allowed !! k = Some t ->
  Forall (fun k' => allowed !! k' <> Some t) pre ->
  range_find order allowed t = Some k.
Proof.
  intros -> Hk Hpre. induction Hpre as [|k' ks Hk' _ IH]; simpl.
  - by rewrite Hk, ty_eqb_refl.
  - destruct (allowed !! k') as [u|]; [|done].
    destruct (ty_eqb u t) eqn:Eu; [|done].
    apply ty_eqb_eq in Eu as ->. done.
Qed.

Lemma key_in_order (order : list string) (allowed : registry) (k : string) (t : ty) :
  (fst <$> map_to_list allowed) ⊆ order -> allowed !! k = Some t -> k ∈ order.
Proof.
  intros Hsub Hk. apply Hsub. apply list_elem_of_fmap.
  exists (k, t). split; [done|]. by apply elem_of_map_to_list.
Qed.

(* ------------------------------------------------------------------ *)
(** ** One iteration of each goroutine on a registered value *)

Lemma send_iter_registered (allowed : registry) (ord : nat -> list string)
    (o : outbound) (q : errchan) (v : val) (rest : list val) (k : string) :
  o_q o = v :: rest ->
  w_faults (o_conn o) = [] ->
  getAllowedTypeName (ord (o_iter o)) allowed v = Some k ->
  send_iter allowed ord o q =
    (mkOutbound rest (o_closed o) (mkWconn (w_out (o_conn o) ++ frame k v) []) (S (o_iter o)),
     q, SRunning).
Proof.
  intros Hq Hf Hk. unfold send_iter. rewrite Hq, Hk.
  unfold conn_encode. rewrite Hf. simpl. unfold frame. by rewrite <- app_assoc.
Qed.

Lemma recv_iter_frame (allowed : registry) (i : inbound) (q : errchan)
    (k : string) (j : json) (later : list rd_event) (endc : option goerr) (t : ty) (v : val) :
  i_dec i = mkDecoder (RVal (JStr k) :: RVal j :: later) endc None ->
  allowed !! k = Some t ->
  decode_into (zero t) j = Some v ->
  recv_iter allowed false i q =
    (mkInbound (mkDecoder later endc None) (i_recv i ++ [v]) (i_recv_closes i), q, RRunning).
Proof.
  intros Hd Hk Hj. unfold recv_iter. rewrite Hd. simpl.
  unfold createTypeInterfaceReflectPointer. rewrite Hk. simpl. by rewrite Hj.
Qed.

(** C1 (round trip). Sending a valid instance [v] of a registered type:
    the send goroutine writes the frame of a name registered for the type
    of [v] (the type name, then the JSON payload), and the recv goroutine
    of a peer that registers that name for the same type and reads this
    frame decodes the payload into a fresh instance of that type and
    pushes exactly [v] on its [Recv] channel. *)
Theorem round_trip (allowed allowedB : registry) (ord : nat -> list string)
    (o : outbound) (q : errchan) (v : val) (rest : list val) :
  o_q o = v :: rest ->
  w_faults (o_conn o) = [] ->
  (fst <$> map_to_list allowed) ⊆ ord (o_iter o) ->
  (exists k, allowed !! k = Some (typeof v)) ->
  allowed ⊆ allowedB ->
  valid_val v ->
  exists (k : string) (o' : outbound),
    allowed !! k = Some (typeof v) /\
    send_iter allowed ord o q = (o', q, SRunning) /\
    w_out (o_conn o') = w_out (o_conn o) ++ frame k v /\
    forall (later : list rd_event) (endc : option goerr) (i : inbound) (qb : errchan),
      i_dec i = mkDecoder (map RVal (frame k v) ++ later) endc None ->
      recv_iter allowedB false i qb =
        (mkInbound (mkDecoder later endc None) (i_recv i ++ [v]) (i_recv_closes i), qb, RRunning).
Proof.
  intros Hq Hf Hord [k0 Hk0] Hsub Hv.
  destruct (range_find_complete (ord (o_iter o)) allowed (typeof v) k0 Hk0)
    as [k Hk]; [by eapply key_in_order|].
  pose proof (range_find_sound _ _ _ _ Hk) as [Hak _].
  exists k. eexists. split; [done|]. split; [by apply send_iter_registered|].
  split; [done|].
  intros later endc i qb Hd.
  apply (recv_iter_frame _ _ _ k (encode v) later endc (typeof v)); [done| |].
  - by eapply lookup_weaken.
  - by apply decode_encode.
Qed.

(* ------------------------------------------------------------------ *)
(** ** Ordering *)

(** One iteration of the send goroutine on a registered value appends to
    the wire a prefix of its frame (all of it when the writes succeed). *)
Lemma send_iter_step (allowed : registry) (ord : nat -> list string)
    (o : outbound) (q : errchan) (v : val) (rest : list val) (k : string) :
  o_q o = v :: rest ->
  getAllowedTypeName (ord (o_iter o)) allowed v = Some k ->
  exists (piece : list json) (c' : wconn) (q' : errchan),
    send_iter allowed ord o q = (mkOutbound rest (o_closed o) c' (S (o_iter o)), q', SRunning) /\
    w_out c' = w_out (o_conn o) ++ piece /\
    piece `prefix_of` frame k v /\
    (w_faults (o_conn o) = [] -> piece = frame k v /\ w_faults c' = []).
Proof.
  intros Hq Hk. unfold send_iter. rewrite Hq, Hk.
  destruct (o_conn o) as [out [|[e|] fs]]; simpl.
  - exists (frame k v). eexists _, q. split; [reflexivity|].
    split; [by rewrite <- app_assoc|]. split; [done|]. done.
  - exists []. eexists _, _. split; [reflexivity|].
    split; [by rewrite app_nil_r|]. split; [apply prefix_nil|]. done.
  - destruct fs as [|[e|] fs]; simpl.
    + exists (frame k v). eexists _, q. split; [reflexivity|].
      split; [by rewrite <- app_assoc|]. done.
    + exists [JStr k]. eexists _, _. split; [reflexivity|].
      split; [done|]. split; [by exists [encode v]|]. done.
    + exists (frame k v). eexists _, q. split; [reflexivity|].
      split; [by rewrite <- app_assoc|]. done.
Qed.

Lemma send_run_order (allowed : registry) (ord : nat -> list string) (vs : list val) :
  forall (o : outbound) (q : errchan),
  o_q o = vs ->
  (forall n, (fst <$> map_to_list allowed) ⊆ ord n) ->
  Forall (fun v => exists k, allowed !! k = Some (typeof v)) vs ->
  exists (kps : list (string * list json)) (o' : outbound) (q' : errchan),
    send_run allowed ord (length vs) o q = (o', q', SRunning) /\
    o_q o' = [] /\
    Forall2 (fun v kp => allowed !! kp.1 = Some (typeof v) /\ kp.2 `prefix_of` frame kp.1 v) vs kps /\
    w_out (o_conn o') = w_out (o_conn o) ++ concat (map snd kps) /\
    (w_faults (o_conn o) = [] -> Forall2 (fun v kp => kp.2 = frame kp.1 v) vs kps).
Proof.
  induction vs as [|v vs IH]; intros o q Hq Hord Hreg.
  - exists [], o, q. simpl. rewrite app_nil_r. done.
  - apply Forall_cons in Hreg as [[k0 Hk0] Hreg].
    destruct (range_find_complete (ord (o_iter o)) allowed (typeof v) k0 Hk0)
      as [k Hk]; [by eapply key_in_order|].
    pose proof (range_find_sound _ _ _ _ Hk) as [Hak _].
    destruct (send_iter_step allowed ord o q v vs k Hq Hk)
      as (piece & c' & q' & Hstep & Hout & Hpre & Hfull).
    destruct (IH (mkOutbound vs (o_closed o) c' (S (o_iter o))) q' eq_refl Hord Hreg)
      as (kps & o'' & q'' & Hrun & Hq'' & Hkps & Hout' & Hfull').
    exists ((k, piece) :: kps), o'', q''.
    simpl. rewrite Hstep. split; [done|]. split; [done|].
    split; [by constructor|].
    split; [simpl in Hout'; by rewrite Hout', Hout, app_assoc|].
    intros Hf. destruct (Hfull Hf) as [-> Hf']. constructor; [done|]. by apply Hfull'.
Qed.

Lemma recv_run_frames (allowed : registry) (frames : list (string * json)) :
  forall (i : inbound) (q : errchan) (later : list rd_event) (endc : option goerr),
  Forall (fun kj => is_Some (allowed !! kj.1)) frames ->
  i_dec i = mkDecoder (frames_input frames ++ later) endc None ->
  exists q' : errchan,
    recv_run allowed false (length frames) i q =
      (mkInbound (mkDecoder later endc None) (i_recv i ++ frames_decoded allowed frames)
         (i_recv_closes i), q', RRunning).
Proof.
  unfold frames_input, frames_decoded.
  induction frames as [|[k j] frames IH]; intros i q later endc Hreg Hd.
  - exists q. simpl. destruct i as [d r c]. simpl in *. subst d. by rewrite app_nil_r.
  - apply Forall_cons in Hreg as [[t Ht] Hreg]. simpl in Ht.
    simpl. rewrite Ht. simpl.
    unfold recv_iter. rewrite Hd. simpl.
    unfold createTypeInterfaceReflectPointer. rewrite Ht. simpl.
    destruct (decode_into (zero t) j) as [v|] eqn:Ej.
    + destruct (IH (mkInbound (mkDecoder (concat (map (fun kj => [RVal (JStr kj.1); RVal kj.2]) frames) ++ later) endc None)
                      (i_recv i ++ [v]) (i_recv_closes i)) q later endc Hreg eq_refl)
        as [q' Hrun].
      exists q'. rewrite Hrun. simpl. by rewrite <- app_assoc.
    + destruct (IH (with_dec (mkDecoder (concat (map (fun kj => [RVal (JStr kj.1); RVal kj.2]) frames) ++ later) endc None) i)
                  (tryPushError q (RecvError ErrUnmarshalType)) later endc Hreg eq_refl)
        as [q' Hrun].
      exists q'. rewrite Hrun. done.
Qed.

(** C2 (per-direction FIFO). Outbound: running the send goroutine over a
    queue [vs] of registered values writes, for each value in enqueue
    order, a prefix of that value's frame, and exactly the frame when the
    connection accepts every write. Inbound: for a sequence of frames with
    registered names read off the wire, the recv goroutine pushes the
    successfully decoded values in exactly the order the frames were read. *)
Theorem fifo_per_direction (allowed allowedB : registry) (ord : nat -> list string) :
  (forall (vs : list val) (o : outbound) (q : errchan),
     o_q o = vs ->
     (forall n, (fst <$> map_to_list allowed) ⊆ ord n) ->
     Forall (fun v => exists k, allowed !! k = Some (typeof v)) vs ->
     exists (kps : list (string * list json)) (o' : outbound) (q' : errchan),
       send_run allowed ord (length vs) o q = (o', q', SRunning) /\
       o_q o' = [] /\
       Forall2 (fun v kp => allowed !! kp.1 = Some (typeof v) /\ kp.2 `prefix_of` frame kp.1 v) vs kps /\
       w_out (o_conn o') = w_out (o_conn o) ++ concat (map snd kps) /\
       (w_faults (o_conn o) = [] -> Forall2 (fun v kp => kp.2 = frame kp.1 v) vs kps)) /\
  (forall (frames : list (string * json)) (i : inbound) (q : errchan)
          (later : list rd_event) (endc : option goerr),
     Forall (fun kj => is_Some (allowedB !! kj.1)) frames ->
     i_dec i = mkDecoder (frames_input frames ++ later) endc None ->
     exists q' : errchan,
       recv_run allowedB false (length frames) i q =
         (mkInbound (mkDecoder later endc None) (i_recv i ++ frames_decoded allowedB frames)
            (i_recv_closes i), q', RRunning)).
Proof.
  split.
  - intros vs o q Hq Hord Hreg. by apply send_run_order.
  - intros frames i q later endc Hreg Hd. by apply recv_run_frames.
Qed.

(** C3 (unregistered send). The send goroutine, on a value whose type no
    name of the registry maps to, panics before any write: the connection
    (and the error queue) are left as they were. *)
Theorem unregistered_send_writes_nothing (allowed : registry) (ord : nat -> list string)
    (o : outbound) (q : errchan) (v : val) (rest : list val) :
  o_q o = v :: rest ->
  (forall k, allowed !! k <> Some (typeof v)) ->
  exists p : werror,
    send_iter allowed ord o q = (mkOutbound rest (o_closed o) (o_conn o) (S (o_iter o)), q, SPanic p).
Proof.
  intros Hq Hnr. unfold send_iter. rewrite Hq.
  unfold getAllowedTypeName. rewrite range_find_none by done. eauto.
Qed.

(** C4 (unregistered incoming name). A frame whose name is not registered
    makes the recv goroutine report a Recv error and go on; the payload is
    left on the stream and the next iteration reads it as a type name: a
    payload that is not a JSON string is a decode error, and a payload that
    is a registered name makes the value after it be decoded as a payload
    of that type. *)
Theorem unregistered_recv_desync (allowed : registry) (i : inbound) (q : errchan)
    (k : string) (payload : json) (later : list rd_event) (endc : option goerr) :
  i_dec i = mkDecoder (RVal (JStr k) :: RVal payload :: later) endc None ->
  allowed !! k = None ->
  let i1 := with_dec (mkDecoder (RVal payload :: later) endc None) i in
  let q1 := tryPushError q (RecvError (ErrMsg ("type not allowed: " ++ k))) in
  recv_iter allowed false i q = (i1, q1, RRunning) /\
  dec_read (i_dec i1) = (mkDecoder later endc None, RdVal payload) /\
  (unmarshal_string payload = None ->
     recv_iter allowed false i1 q1 =
       (with_dec (mkDecoder later endc None) i1, tryPushError q1 (RecvError ErrUnmarshalType), RRunning)) /\
  (forall (name : string) (t : ty) (j : json) (later' : list rd_event) (v : val),
     payload = JStr name -> allowed !! name = Some t -> later = RVal j :: later' ->
     decode_into (zero t) j = Some v ->
     recv_iter allowed false i1 q1 =
       (mkInbound (mkDecoder later' endc None) (i_recv i ++ [v]) (i_recv_closes i), q1, RRunning)).
Proof.
  intros Hd Hk i1 q1. split; [|split; [|split]].
  - unfold recv_iter. rewrite Hd. simpl.
    unfold createTypeInterfaceReflectPointer. by rewrite Hk.
  - done.
  - intros Hp. unfold recv_iter. simpl. by rewrite Hp.
  - intros name t j later' v -> Hn -> Hj.
    unfold recv_iter. simpl.
    unfold createTypeInterfaceReflectPointer. rewrite Hn. simpl. by rewrite Hj.
Qed.

(** C9 (panic value), the claim's counterexample: the panic raised for an
    unregistered [bool] carries a [*sendError]. *)
Lemma panic_value_is_send_error :
  send_iter ∅ (fun _ => []) (mkOutbound [VBool true] false empty_wconn 0) (mkErrchan [] [])
  = (mkOutbound [] false empty_wconn 1, mkErrchan [] [],
     SPanic (SendError (ErrMsg "type not allowed: bool"))).
Proof. reflexivity. Qed.

(** C9, as the code has it: the panic for an unregistered value carries a
    Send-Error value, [&sendError{"type not allowed: %T"}]; it is raised
    as a panic and not pushed on the error queue. *)
Theorem unregistered_panic_value (allowed : registry) (ord : nat -> list string)
    (o : outbound) (q : errchan) (v : val) (rest : list val) :
  o_q o = v :: rest ->
  (forall k, allowed !! k <> Some (typeof v)) ->
  send_iter allowed ord o q =
    (mkOutbound rest (o_closed o) (o_conn o) (S (o_iter o)), q,
     SPanic (SendError (ErrMsg ("type not allowed: " ++ type_string (typeof v))))).
Proof.
  intros Hq Hnr. unfold send_iter, getAllowedTypeName. rewrite Hq.
  by rewrite range_find_none.
Qed.

(* ------------------------------------------------------------------ *)
(** ** Termination of the recv goroutine at the end of the stream *)

Lemma recv_iter_progress (allowed : registry) (sd : bool) (i : inbound) (q : errchan) (e : goerr) :
  d_err (i_dec i) = None ->
  Forall (fun ev => is_value_event ev = true) (d_in (i_dec i)) ->
  d_end (i_dec i) = Some e ->
  closed_class e = true ->
  (exists (i' : inbound) (q' : errchan),
     recv_iter allowed sd i q = (i', q', RStopped) /\ i_recv_closes i' = S (i_recv_closes i)) \/
  (exists (i' : inbound) (q' : errchan),
     recv_iter allowed sd i q = (i', q', RRunning) /\
     d_err (i_dec i') = None /\
     Forall (fun ev => is_value_event ev = true) (d_in (i_dec i')) /\
     d_end (i_dec i') = Some e /\
     (length (d_in (i_dec i')) < length (d_in (i_dec i)))%nat /\
     i_recv_closes i' = i_recv_closes i).
Proof.
  destruct i as [[din dend derr] r c]; simpl. intros -> Hall -> Hc.
  unfold recv_iter. destruct sd; [left; by eexists _, _|]. simpl.
  destruct din as [|[j|ee] din]; simpl.
  - left. unfold recv_fail. rewrite Hc. by eexists _, _.
  - apply Forall_cons in Hall as [_ Hall].
    destruct (unmarshal_string j) as [name|].
    + destruct (createTypeInterfaceReflectPointer allowed name) as [data|].
      * destruct din as [|[j2|ee2] din']; simpl.
        -- left. unfold recv_fail. rewrite Hc. by eexists _, _.
        -- apply Forall_cons in Hall as [_ Hall].
           destruct (decode_into data j2); right; eexists _, _;
             (split; [reflexivity|]); simpl; repeat split; try done; lia.
        -- apply Forall_cons in Hall as [Hf _]. done.
      * right. eexists _, _. split; [reflexivity|]. simpl. repeat split; try done; lia.
    + right. eexists _, _. split; [reflexivity|]. simpl. repeat split; try done; lia.
  - apply Forall_cons in Hall as [Hf _]. done.
Qed.

Lemma recv_run_stops (allowed : registry) (sd : bool) (e : goerr) (n : nat) :
  forall (i : inbound) (q : errchan),
  d_err (i_dec i) = None ->
  Forall (fun ev => is_value_event ev = true) (d_in (i_dec i)) ->
  d_end (i_dec i) = Some e ->
  closed_class e = true ->
  (length (d_in (i_dec i)) < n)%nat ->
  exists (i' : inbound) (q' : errchan),
    recv_run allowed sd n i q = (i', q', RStopped) /\ i_recv_closes i' = S (i_recv_closes i).
Proof.
  induction n as [|n IH]; intros i q Herr Hall Hend Hc Hlen; [lia|].
  destruct (recv_iter_progress allowed sd i q e Herr Hall Hend Hc)
    as [(i' & q' & Hit & Hcl)|(i' & q' & Hit & Herr' & Hall' & Hend' & Hlen' & Hcl)].
  - exists i', q'. simpl. by rewrite Hit.
  - destruct (IH i' q' Herr' Hall' Hend' Hc) as (i'' & q'' & Hrun & Hcl'); [lia|].
    exists i'', q''. simpl. rewrite Hit. split; [done|]. by rewrite Hcl', Hcl.
Qed.

(** C5 (idempotent Close). On an endpoint that has not been closed, the
    first [Close()] closes [closeRecvChan], closes [Send] and closes the
    connection once, without panicking; every later call returns at once
    and changes nothing, on either endpoint. The peer's recv goroutine,
    which has not returned yet and has only complete values left to read,
    then returns and closes its [Recv] channel exactly once. *)
Theorem close_idempotent (a b : endpoint) :
  ep_shutdown a = false ->
  o_closed (ep_out a) = false ->
  exists s1 : system,
    close_a (mkSystem a b) = Some s1 /\
    ep_shutdown (sys_a s1) = true /\
    o_closed (ep_out (sys_a s1)) = true /\
    ep_soc_closes (sys_a s1) = S (ep_soc_closes a) /\
    (forall n, close_a_n n s1 = Some s1) /\
    (i_recv_closes (ep_in b) = 0%nat ->
     d_err (i_dec (ep_in b)) = None ->
     Forall (fun ev => is_value_event ev = true) (d_in (i_dec (ep_in b))) ->
     exists (i' : inbound) (q' : errchan),
       peer_recv_run (S (length (d_in (i_dec (ep_in b))))) s1 = (i', q', RStopped) /\
       i_recv_closes i' = 1%nat).
Proof.
  intros Hs Ho.
  unfold close_a, Close. simpl. rewrite Hs, Ho. simpl.
  rewrite (proj2 (Nat.ltb_lt _ _) (Nat.lt_succ_diag_r _)).
  eexists. split; [reflexivity|]. simpl.
  split; [done|]. split; [done|]. split; [done|]. split.
  - intros n. induction n as [|n IH]; [done|]. simpl.
    unfold close_a at 1, Close at 1. simpl. rewrite Nat.ltb_irrefl. exact IH.
  - intros Hcl Herr Hall. unfold peer_recv_run. simpl.
    destruct (recv_run_stops (ep_allowed b) (ep_shutdown b) ErrEOF
                (S (length (d_in (i_dec (ep_in b)))))
                (mkInbound (mkDecoder (d_in (i_dec (ep_in b))) (Some ErrEOF) (d_err (i_dec (ep_in b))))
                   (i_recv (ep_in b)) (i_recv_closes (ep_in b)))
                (ep_err b)) as (i' & q' & Hrun & Hc'); simpl; try done; try lia.
    exists i', q'. split; [done|]. by rewrite Hc', Hcl.
Qed.

(* ------------------------------------------------------------------ *)
(** ** Errors do not stop the goroutines *)

Lemma send_iter_terminated (allowed : registry) (ord : nat -> list string)
    (o o' : outbound) (q q' : errchan) :
  send_iter allowed ord o q = (o', q', STerminated) -> o_q o = [] /\ o_closed o = true.
Proof.
  unfold send_iter. destruct (o_q o) as [|v rest].
  - destruct (o_closed o); intros H; inversion H; done.
  - destruct (getAllowedTypeName _ _ _) as [k|]; [|intros H; inversion H].
    destruct (conn_encode (o_conn o) (JStr k)) as [c1 [e1|]];
      [|destruct (conn_encode c1 (encode v)) as [c2 [e2|]]];
      intros H; inversion H.
Qed.

Lemma recv_iter_stopped (allowed : registry) (sd : bool) (i i' : inbound) (q q' : errchan) :
  recv_iter allowed sd i q = (i', q', RStopped) ->
  sd = true \/
  exists e, closed_class e = true /\
    (d_err (i_dec i) = Some e \/ RErr e ∈ d_in (i_dec i) \/ d_end (i_dec i) = Some e).
Proof.
  intros Hit. destruct sd; [by left|right]. revert Hit. unfold recv_iter, recv_fail.
  destruct i as [[din dend derr] r c]; simpl.
  destruct derr as [e|]; simpl.
  { destruct (closed_class e) eqn:Ec; intros H; inversion H. eauto. }
  destruct din as [|[j|e] din]; simpl.
  - destruct dend as [e|]; simpl; [|intros H; inversion H].
    destruct (closed_class e) eqn:Ec; intros H; inversion H. eauto.
  - destruct (unmarshal_string j) as [name|]; [|intros H; inversion H].
    destruct (createTypeInterfaceReflectPointer allowed name) as [data|]; [|intros H; inversion H].
    destruct din as [|[j2|e] din]; simpl.
    + destruct dend as [e|]; simpl; [|intros H; inversion H].
      destruct (closed_class e) eqn:Ec; intros H; inversion H. eauto.
    + destruct (decode_into data j2); intros H; inversion H.
    + destruct (closed_class e) eqn:Ec; intros H; inversion H.
      exists e. split; [done|]. right; left. apply elem_of_cons. right. apply elem_of_cons. by left.
  - destruct (closed_class e) eqn:Ec; intros H; inversion H.
    exists e. split; [done|]. right; left. apply elem_of_cons. by left.
Qed.

Lemma recv_run_sticky (allowed : registry) (e : goerr) (n : nat) :
  forall (i : inbound) (q : errchan),
  d_err (i_dec i) = Some e -> closed_class e = false ->
  exists (i' : inbound) (q' : errchan),
    recv_run allowed false n i q = (i', q', RRunning) /\ i_dec i' = i_dec i /\ i_recv i' = i_recv i.
Proof.
  induction n as [|n IH]; intros i q He Hc; [by exists i, q|].
  simpl. unfold recv_iter. simpl. unfold dec_read. rewrite He. simpl.
  unfold recv_fail. rewrite Hc.
  destruct (IH (with_dec (i_dec i) i) (tryPushError q (RecvError e))) as (i' & q' & Hrun & Hd & Hr);
    simpl; [by rewrite He|done|].
  exists i', q'. split; [done|]. split; [by rewrite Hd|]. by rewrite Hr.
Qed.

(** C6 (errors do not stop the goroutines). Send goroutine: when the
    connection fails the name write or the payload write, the error is
    reported as a Send error and the loop goes on with the next value; it
    terminates only on a closed and drained [Send]. Recv goroutine: a read
    error that is not closed-class, a name that does not decode as a
    string, a payload that does not decode and a read error on the payload
    are each reported as a Recv error and the loop goes on; it stops only
    on the shutdown signal or a closed-class error from the connection;
    with a sticky non-closed error it keeps running for ever. *)
Theorem errors_do_not_stop_loops (allowed : registry) (ord : nat -> list string) :
  (forall (o : outbound) (q : errchan) (v : val) (rest : list val) (k : string)
          (e : goerr) (fs : list (option goerr)),
     o_q o = v :: rest ->
     getAllowedTypeName (ord (o_iter o)) allowed v = Some k ->
     (w_faults (o_conn o) = Some e :: fs \/ w_faults (o_conn o) = None :: Some e :: fs) ->
     exists c' : wconn,
       send_iter allowed ord o q =
         (mkOutbound rest (o_closed o) c' (S (o_iter o)), tryPushError q (SendError e), SRunning)) /\
  (forall (o o' : outbound) (q q' : errchan),
     send_iter allowed ord o q = (o', q', STerminated) -> o_q o = [] /\ o_closed o = true) /\
  (forall (i : inbound) (q : errchan) (d' : decoder) (e : goerr),
     dec_read (i_dec i) = (d', RdErr e) -> closed_class e = false ->
     recv_iter allowed false i q = (with_dec d' i, tryPushError q (RecvError e), RRunning)) /\
  (forall (i : inbound) (q : errchan) (j : json) (rest : list rd_event) (endc : option goerr),
     i_dec i = mkDecoder (RVal j :: rest) endc None -> unmarshal_string j = None ->
     recv_iter allowed false i q =
       (with_dec (mkDecoder rest endc None) i, tryPushError q (RecvError ErrUnmarshalType), RRunning)) /\
  (forall (i : inbound) (q : errchan) (k : string) (t : ty) (j : json)
          (rest : list rd_event) (endc : option goerr),
     i_dec i = mkDecoder (RVal (JStr k) :: RVal j :: rest) endc None ->
     allowed !! k = Some t -> decode_into (zero t) j = None ->
     recv_iter allowed false i q =
       (with_dec (mkDecoder rest endc None) i, tryPushError q (RecvError ErrUnmarshalType), RRunning)) /\
  (forall (i : inbound) (q : errchan) (k : string) (t : ty) (e : goerr)
          (rest : list rd_event) (endc : option goerr),
     i_dec i = mkDecoder (RVal (JStr k) :: RErr e :: rest) endc None ->
     allowed !! k = Some t -> closed_class e = false ->
     recv_iter allowed false i q =
       (with_dec (mkDecoder rest endc (Some e)) i, tryPushError q (RecvError e), RRunning)) /\
  (forall (sd : bool) (i i' : inbound) (q q' : errchan),
     recv_iter allowed sd i q = (i', q', RStopped) ->
     sd = true \/
     exists e, closed_class e = true /\
       (d_err (i_dec i) = Some e \/ RErr e ∈ d_in (i_dec i) \/ d_end (i_dec i) = Some e)) /\
  (forall (n : nat) (i : inbound) (q : errchan) (e : goerr),
     d_err (i_dec i) = Some e -> closed_class e = false ->
     exists (i' : inbound) (q' : errchan), recv_run allowed false n i q = (i', q', RRunning)).
Proof.
  split; [|split; [|split; [|split; [|split; [|split; [|split]]]]]].
  - intros o q v rest k e fs Hq Hk Hf. unfold send_iter. rewrite Hq, Hk.
    unfold conn_encode at 1. destruct Hf as [Hf|Hf]; rewrite Hf; simpl; eauto.
  - apply send_iter_terminated.
  - intros i q d' e Hrd Hc. unfold recv_iter. simpl. rewrite Hrd. unfold recv_fail. by rewrite Hc.
  - intros i q j rest endc Hd Hj. unfold recv_iter. rewrite Hd. simpl. by rewrite Hj.
  - intros i q k t j rest endc Hd Hk Hj. unfold recv_iter. rewrite Hd. simpl.
    unfold createTypeInterfaceReflectPointer. rewrite Hk. simpl. by rewrite Hj.
  - intros i q k t e rest endc Hd Hk Hc. unfold recv_iter. rewrite Hd. simpl.
    unfold createTypeInterfaceReflectPointer. rewrite Hk. simpl. unfold recv_fail. by rewrite Hc.
  - apply recv_iter_stopped.
  - intros n i q e He Hc. destruct (recv_run_sticky allowed e n i q He Hc) as (i' & q' & H & _). eauto.
Qed.

(* ------------------------------------------------------------------ *)
(** ** Construction and the error channel *)

Lemma NewNamedWebChan_shape (c : wconn) (d : decoder) (bufLength : Z)
    (allowedTypes : gmap string val) (wc : endpoint) :
  NewNamedWebChan c d bufLength allowedTypes = Some wc ->
  wc = mkEndpoint (typeof <$> allowedTypes) (Z.to_nat bufLength) (Z.to_nat bufLength) 100
         (mkOutbound [] false c 0) (mkInbound d [] 0) (mkErrchan [] []) false 0.
Proof.
  unfold NewNamedWebChan, make_chan.
  destruct ((maxAlloc - hchanSize <? iface_size * bufLength) || (bufLength <? 0)); simpl;
    [discriminate|]. by intros [= <-].
Qed.

(** Whether construction panics depends on the buffer length only. *)
Lemma NewNamedWebChan_none (c : wconn) (d : decoder) (bufLength : Z)
    (allowedTypes allowedTypes' : gmap string val) :
  NewNamedWebChan c d bufLength allowedTypes = None <->
  NewNamedWebChan c d bufLength allowedTypes' = None.
Proof.
  unfold NewNamedWebChan, make_chan.
  destruct ((maxAlloc - hchanSize <? iface_size * bufLength) || (bufLength <? 0)); simpl; done.
Qed.

Lemma NewNamedWebChan_fresh (c : wconn) (d : decoder) (bufLength : Z)
    (allowedTypes : gmap string val) (wc : endpoint) :
  NewNamedWebChan c d bufLength allowedTypes = Some wc ->
  ep_shutdown wc = false /\ o_closed (ep_out wc) = false /\ ep_err_cap wc = 100%nat.
Proof. intros H. by rewrite (NewNamedWebChan_shape _ _ _ _ _ H). Qed.

(** C7 (bounded, lossy error channel). Every construction that succeeds
    gives [Error] the capacity 100 whatever the buffer length ([Send] and
    [Recv] get the buffer length); pushing on a full error
    channel leaves it unchanged (the error is dropped, a line is printed)
    and both goroutines go on with their next iteration. *)
Theorem error_queue_bounded_lossy :
  (forall (c : wconn) (d : decoder) (bufLength : Z) (allowedTypes : gmap string val) (wc : endpoint),
     NewNamedWebChan c d bufLength allowedTypes = Some wc ->
     ep_err_cap wc = 100%nat /\ ep_send_cap wc = Z.to_nat bufLength /\
     ep_recv_cap wc = Z.to_nat bufLength) /\
  (forall (q : errchan) (err : werror),
     (error_cap <= length (eq_items q))%nat -> eq_items (tryPushError q err) = eq_items q) /\
  (forall (allowed : registry) (ord : nat -> list string) (o : outbound) (q : errchan)
          (v : val) (rest : list val) (k : string) (e : goerr) (fs : list (option goerr)),
     (error_cap <= length (eq_items q))%nat ->
     o_q o = v :: rest ->
     getAllowedTypeName (ord (o_iter o)) allowed v = Some k ->
     w_faults (o_conn o) = Some e :: fs ->
     exists (o' : outbound) (q' : errchan),
       send_iter allowed ord o q = (o', q', SRunning) /\ eq_items q' = eq_items q /\ o_q o' = rest) /\
  (forall (allowed : registry) (i : inbound) (q : errchan) (d' : decoder) (e : goerr),
     (error_cap <= length (eq_items q))%nat ->
     dec_read (i_dec i) = (d', RdErr e) -> closed_class e = false ->
     exists q' : errchan,
       recv_iter allowed false i q = (with_dec d' i, q', RRunning) /\ eq_items q' = eq_items q).
Proof.
  assert (Hfull : forall (q : errchan) (err : werror),
             (error_cap <= length (eq_items q))%nat -> eq_items (tryPushError q err) = eq_items q).
  { intros q err Hq. unfold tryPushError.
    destruct (Nat.ltb_spec (length (eq_items q)) error_cap); [lia|done]. }
  split; [|split; [|split]].
  - intros c d bufLength allowedTypes wc H. by rewrite (NewNamedWebChan_shape _ _ _ _ _ H).
  - exact Hfull.
  - intros allowed ord o q v rest k e fs Hq Hd Hk Hf.
    unfold send_iter. rewrite Hd, Hk. unfold conn_encode at 1. rewrite Hf. simpl.
    eexists _, _. split; [reflexivity|]. split; [by apply Hfull|done].
  - intros allowed i q d' e Hq Hrd Hc. unfold recv_iter. simpl. rewrite Hrd. unfold recv_fail.
    rewrite Hc. eexists. split; [reflexivity|]. by apply Hfull.
Qed.

Lemma allowed_types_map_lookup (protos : list val) :
  forall (m : gmap string val) (k : string),
  fold_left (fun m v => <[type_string (typeof v) := v]> m) protos m !! k =
    match last_named k protos with Some v => Some v | None => m !! k end.
Proof.
  induction protos as [|v vs IH]; intros m k; simpl; [done|].
  rewrite IH. destruct (last_named k vs); [done|].
  destruct (String.eqb_spec (type_string (typeof v)) k) as [<-|Hne].
  - by rewrite lookup_insert_eq.
  - by rewrite lookup_insert_ne.
Qed.

(** C8, the claim's counterexample: two string prototypes both get the
    name "string", and NewWebChan succeeds. *)
Lemma duplicate_name_accepted :
  exists wc : endpoint,
    NewWebChan empty_wconn open_decoder 10 [VString "a"; VString "b"] = Some wc /\
    ep_allowed wc = {[ "string" := TString ]}.
Proof. eexists. split; reflexivity. Qed.

(** C8, as the code has it: construction does not fail on names. The
    constructors panic or not as they do with no types at all: only the
    buffer length decides. The named constructor gets a Go map, whose
    keys are distinct, and registers each entry under its key; NewWebChan
    names each prototype by %T and, for a name given more than once, keeps
    the last prototype. *)
Theorem construction_keeps_last_prototype (c : wconn) (d : decoder) (bufLength : Z) :
  (forall allowedTypes : gmap string val,
     NewNamedWebChan c d bufLength allowedTypes = None <-> NewNamedWebChan c d bufLength ∅ = None) /\
  (forall protos : list val,
     NewWebChan c d bufLength protos = None <-> NewNamedWebChan c d bufLength ∅ = None) /\
  (forall (allowedTypes : gmap string val) (wc : endpoint),
     NewNamedWebChan c d bufLength allowedTypes = Some wc -> ep_allowed wc = typeof <$> allowedTypes) /\
  (forall (protos : list val) (wc : endpoint),
     NewWebChan c d bufLength protos = Some wc ->
     forall k, ep_allowed wc !! k = typeof <$> last_named k protos).
Proof.
  split; [|split; [|split]].
  - intros allowedTypes. apply NewNamedWebChan_none.
  - intros protos. apply NewNamedWebChan_none.
  - intros allowedTypes wc H. by rewrite (NewNamedWebChan_shape _ _ _ _ _ H).
  - intros protos wc H k. unfold NewWebChan in H. rewrite (NewNamedWebChan_shape _ _ _ _ _ H).
    simpl. rewrite lookup_fmap. unfold allowed_types_map.
    rewrite allowed_types_map_lookup. destruct (last_named k protos); done.
Qed.

(* ------------------------------------------------------------------ *)
(** ** Sending after Close *)

Lemma close_n_closed (n : nat) (wc : endpoint) :
  ep_shutdown wc = true -> close_n n wc = Some wc.
Proof.
  intros H. induction n as [|n IH]; [done|]. simpl. unfold Close. by rewrite H.
Qed.

(** C10 (send after Close). After the first [Close()] of a constructed
    WebChan, and after any number of further calls, [wc.Send <- v] panics
    (send on closed channel) for every value. *)
Theorem send_after_close_panics (c : wconn) (d : decoder) (bufLength : Z)
    (allowedTypes : gmap string val) (wc : endpoint) :
  NewNamedWebChan c d bufLength allowedTypes = Some wc ->
  forall n : nat, exists wc' : endpoint,
    close_n (S n) wc = Some wc' /\ o_closed (ep_out wc') = true /\
    forall v : val, send_on wc' v = SendPanics.
Proof.
  intros Hnew n. destruct (NewNamedWebChan_fresh _ _ _ _ _ Hnew) as (Hs & Ho & _).
  simpl. unfold Close at 1. rewrite Hs, Ho. simpl.
  rewrite close_n_closed by done.
  eexists. split; [reflexivity|]. simpl. split; [done|]. intros v. reflexivity.
Qed.

(* ------------------------------------------------------------------ *)
(** ** The theorems at the README's sample endpoints *)

Lemma round_trip_witness :
  exists (k : string) (o' : outbound),
    sample_reg !! k = Some (typeof testType_val) /\
    send_iter sample_reg sample_ord (mkOutbound [testType_val] false empty_wconn 0) sample_errs
      = (o', sample_errs, SRunning) /\
    w_out (o_conn o') = [] ++ frame k testType_val /\
    forall (later : list rd_event) (endc : option goerr) (i : inbound) (qb : errchan),
      i_dec i = mkDecoder (map RVal (frame k testType_val) ++ later) endc None ->
      recv_iter sample_reg false i qb =
        (mkInbound (mkDecoder later endc None) (i_recv i ++ [testType_val]) (i_recv_closes i), qb, RRunning).
Proof.
  apply (round_trip sample_reg sample_reg sample_ord (mkOutbound [testType_val] false empty_wconn 0)
           sample_errs testType_val []).
  - reflexivity.
  - reflexivity.
  - done.
  - exists "webchan.testType". reflexivity.
  - done.
  - simpl. split; [|repeat split]. repeat constructor; set_solver.
Defined.

Lemma fifo_per_direction_witness :
  (exists (kps : list (string * list json)) (o' : outbound) (q' : errchan),
     send_run sample_reg sample_ord 2
       (mkOutbound [VString "Hello"; testType_val] false empty_wconn 0) sample_errs = (o', q', SRunning) /\
     o_q o' = [] /\
     Forall2 (fun v kp => sample_reg !! kp.1 = Some (typeof v) /\ kp.2 `prefix_of` frame kp.1 v)
       [VString "Hello"; testType_val] kps /\
     w_out (o_conn o') = [] ++ concat (map snd kps) /\
     (w_faults empty_wconn = [] ->
       Forall2 (fun v kp => kp.2 = frame kp.1 v) [VString "Hello"; testType_val] kps)) /\
  (exists q' : errchan,
     recv_run sample_reg false 2 (mkInbound (mkDecoder (frames_input sample_frames ++ []) None None) [] 0)
       sample_errs =
       (mkInbound (mkDecoder [] None None) ([] ++ frames_decoded sample_reg sample_frames) 0, q', RRunning)).
Proof.
  destruct (fifo_per_direction sample_reg sample_reg sample_ord) as [Hout Hin]. split.
  - destruct (Hout [VString "Hello"; testType_val] (mkOutbound [VString "Hello"; testType_val] false empty_wconn 0)
                sample_errs eq_refl (fun n => reflexivity _))
      as (kps & o' & q' & H1 & H2 & H3 & H4 & H5).
    + constructor; [exists "string"; reflexivity|].
      constructor; [exists "webchan.testType"; reflexivity|constructor].
    + exists kps, o', q'. split; [exact H1|]. split; [exact H2|]. split; [exact H3|].
      split; [exact H4|exact H5].
  - apply (Hin sample_frames (mkInbound (mkDecoder (frames_input sample_frames ++ []) None None) [] 0)
             sample_errs [] None).
    + constructor; [eexists; reflexivity|]. constructor; [eexists; reflexivity|constructor].
    + reflexivity.
Defined.

Lemma unregistered_send_writes_nothing_witness :
  exists p : werror,
    send_iter sample_reg sample_ord (mkOutbound [VBool true] false empty_wconn 0) sample_errs =
      (mkOutbound [] false empty_wconn 1, sample_errs, SPanic p).
Proof.
  apply (unregistered_send_writes_nothing sample_reg sample_ord
           (mkOutbound [VBool true] false empty_wconn 0) sample_errs (VBool true) []).
  - reflexivity.
  - intros k Hk. apply elem_of_map_to_list in Hk. vm_compute in Hk.
    repeat (apply elem_of_cons in Hk as [Hk|Hk]; [discriminate|]). by apply elem_of_nil in Hk.
Defined.

Lemma unregistered_recv_desync_witness :
  let i := mkInbound (mkDecoder [RVal (JStr "point"); RVal (JNum 7); RVal (JStr "x")] None None) [] 0 in
  let i1 := with_dec (mkDecoder [RVal (JNum 7); RVal (JStr "x")] None None) i in
  let q1 := tryPushError sample_errs (RecvError (ErrMsg ("type not allowed: " ++ "point"))) in
  recv_iter sample_reg false i sample_errs = (i1, q1, RRunning) /\
  dec_read (i_dec i1) = (mkDecoder [RVal (JStr "x")] None None, RdVal (JNum 7)) /\
  (unmarshal_string (JNum 7) = None ->
     recv_iter sample_reg false i1 q1 =
       (with_dec (mkDecoder [RVal (JStr "x")] None None) i1,
        tryPushError q1 (RecvError ErrUnmarshalType), RRunning)) /\
  (forall (name : string) (t : ty) (j : json) (later' : list rd_event) (v : val),
     JNum 7 = JStr name -> sample_reg !! name = Some t -> [RVal (JStr "x")] = RVal j :: later' ->
     decode_into (zero t) j = Some v ->
     recv_iter sample_reg false i1 q1 =
       (mkInbound (mkDecoder later' None None) (i_recv i ++ [v]) (i_recv_closes i), q1, RRunning)).
Proof.
  apply (unregistered_recv_desync sample_reg _ sample_errs "point" (JNum 7) [RVal (JStr "x")] None).
  - reflexivity.
  - reflexivity.
Defined.

Lemma close_idempotent_witness :
  exists s1 : system,
    close_a (mkSystem sample_wc sample_peer) = Some s1 /\
    ep_shutdown (sys_a s1) = true /\
    o_closed (ep_out (sys_a s1)) = true /\
    ep_soc_closes (sys_a s1) = 1%nat /\
    (forall n, close_a_n n s1 = Some s1) /\
    (i_recv_closes (ep_in sample_peer) = 0%nat ->
     d_err (i_dec (ep_in sample_peer)) = None ->
     Forall (fun ev => is_value_event ev = true) (d_in (i_dec (ep_in sample_peer))) ->
     exists (i' : inbound) (q' : errchan),
       peer_recv_run (S (length (d_in (i_dec (ep_in sample_peer))))) s1 = (i', q', RStopped) /\
       i_recv_closes i' = 1%nat).
Proof.
  apply (close_idempotent sample_wc sample_peer); reflexivity.
Defined.

Lemma errors_do_not_stop_loops_witness :
  (exists c' : wconn,
     send_iter sample_reg sample_ord
       (mkOutbound [VString "Hello"] false (mkWconn [] [Some (ErrMsg "broken pipe")]) 0) sample_errs =
       (mkOutbound [] false c' 1, tryPushError sample_errs (SendError (ErrMsg "broken pipe")), SRunning)) /\
  recv_iter sample_reg false (mkInbound (mkDecoder [RErr ErrSyntax] None None) [] 0) sample_errs =
    (with_dec (mkDecoder [] None (Some ErrSyntax)) (mkInbound (mkDecoder [RErr ErrSyntax] None None) [] 0),
     tryPushError sample_errs (RecvError ErrSyntax), RRunning) /\
  (exists (i' : inbound) (q' : errchan),
     recv_run sample_reg false 1000 (mkInbound (mkDecoder [] None (Some ErrUnexpectedEOF)) [] 0) sample_errs
       = (i', q', RRunning)).
Proof.
  destruct (errors_do_not_stop_loops sample_reg sample_ord)
    as (Hs & _ & Hr & _ & _ & _ & _ & Hsticky).
  split; [|split].
  - apply (Hs (mkOutbound [VString "Hello"] false (mkWconn [] [Some (ErrMsg "broken pipe")]) 0) sample_errs
             (VString "Hello") [] "string" (ErrMsg "broken pipe") []); [reflexivity|reflexivity|].
    by left.
  - by apply Hr.
  - by apply (Hsticky 1000%nat _ _ ErrUnexpectedEOF).
Defined.

Lemma error_queue_bounded_lossy_witness :
  (exists wc : endpoint,
     NewNamedWebChan empty_wconn open_decoder 3 sample_allowed = Some wc /\
     ep_err_cap wc = 100%nat /\ ep_send_cap wc = 3%nat /\ ep_recv_cap wc = 3%nat) /\
  eq_items (tryPushError (mkErrchan (repeat (SendError ErrEOF) 100) []) (RecvError ErrSyntax)) =
    repeat (SendError ErrEOF) 100 /\
  (exists q' : errchan,
     recv_iter sample_reg false (mkInbound (mkDecoder [RErr ErrSyntax] None None) [] 0)
       (mkErrchan (repeat (SendError ErrEOF) 100) []) =
       (with_dec (mkDecoder [] None (Some ErrSyntax)) (mkInbound (mkDecoder [RErr ErrSyntax] None None) [] 0),
        q', RRunning) /\
     eq_items q' = repeat (SendError ErrEOF) 100).
Proof.
  destruct error_queue_bounded_lossy as (Hnew & Hfull & _ & Hrecv).
  split; [|split].
  - eexists. split; [reflexivity|].
    apply (Hnew empty_wconn open_decoder 3 sample_allowed). reflexivity.
  - apply Hfull. unfold error_cap. simpl. lia.
  - apply (Hrecv sample_reg (mkInbound (mkDecoder [RErr ErrSyntax] None None) [] 0)
             (mkErrchan (repeat (SendError ErrEOF) 100) []) (mkDecoder [] None (Some ErrSyntax)) ErrSyntax).
    + unfold error_cap. simpl. lia.
    + reflexivity.
    + reflexivity.
Defined.

Lemma construction_keeps_last_prototype_witness :
  exists wc : endpoint,
    NewWebChan empty_wconn open_decoder 10 [VString "a"; VString "b"] = Some wc /\
    ep_allowed wc !! "string" = typeof <$> last_named "string" [VString "a"; VString "b"] /\
    (NewWebChan empty_wconn open_decoder (-1) [VString "a"; VString "b"] = None <->
     NewNamedWebChan empty_wconn open_decoder (-1) ∅ = None).
Proof.
  destruct (construction_keeps_last_prototype empty_wconn open_decoder 10) as (_ & _ & _ & H4).
  destruct (construction_keeps_last_prototype empty_wconn open_decoder (-1)) as (_ & H2 & _ & _).
  eexists. split; [reflexivity|]. split.
  - apply (H4 [VString "a"; VString "b"]). reflexivity.
  - apply H2.
Defined.

Lemma unregistered_panic_value_witness :
  send_iter sample_reg sample_ord (mkOutbound [VBool true] false empty_wconn 0) sample_errs =
    (mkOutbound [] false empty_wconn 1, sample_errs,
     SPanic (SendError (ErrMsg ("type not allowed: " ++ type_string (typeof (VBool true)))))).
Proof.
  apply unregistered_panic_value.
  - reflexivity.
  - intros k Hk. apply elem_of_map_to_list in Hk. vm_compute in Hk.
    repeat (apply elem_of_cons in Hk as [Hk|Hk]; [discriminate|]). by apply elem_of_nil in Hk.
Defined.

Lemma send_after_close_panics_witness :
  exists wc' : endpoint,
    close_n 3 sample_wc = Some wc' /\ o_closed (ep_out wc') = true /\
    forall v : val, send_on wc' v = SendPanics.
Proof.
  apply (send_after_close_panics empty_wconn open_decoder 10 sample_allowed sample_wc).
  reflexivity.
Defined.

(* ------------------------------------------------------------------ *)
(** ** Further properties of the code: helper lemmas *)

Section json_ind_nested.
  Variable P : json -> Prop.
  Hypothesis HNull : P JNull.
  Hypothesis HBool : forall b, P (JBool b).
  Hypothesis HNum : forall z, P (JNum z).
  Hypothesis HStr : forall s, P (JStr s).
  Hypothesis HArr : forall l, Forall P l -> P (JArr l).
  Hypothesis HObj : forall kvs, Forall (fun kv => P kv.2) kvs -> P (JObj kvs).

Fixpoint json_ind' (j : json) : P j :=
    match j with
    | JNull => HNull
    | JBool b => HBool b
    | JNum z => HNum z
    | JStr s => HStr s
    | JArr l =>
        HArr l
          ((fix go (l : list json) : Forall P l :=
              match l with
              | [] => List.Forall_nil _
              | x :: l' => @List.Forall_cons _ P x l' (json_ind' x) (go l')
              end) l)
    | JObj kvs =>
        HObj kvs
          ((fix go (kvs : list (string * json)) : Forall (fun kv => P kv.2) kvs :=
              match kvs with
              | [] => List.Forall_nil _
              | kv :: kvs' => @List.Forall_cons _ (fun kv => P kv.2) kv kvs' (json_ind' kv.2) (go kvs')
              end) kvs)
    end.
End json_ind_nested.

Lemma typeof_zero (t : ty) : typeof (zero t) = t.
Proof.
  induction t as [| | |n fs IH] using ty_ind'; try done.
  simpl. f_equal. rewrite map_map.
  induction fs as [|[k u] fs IHfs]; [done|].
  apply Forall_cons in IH as [Hu IH]. simpl in *. rewrite Hu. f_equal. by apply IHfs.
Qed.

Lemma set_field_typeof (fs : list (string * val)) (k : string) (x x' : val) :
  get_field fs k = Some x -> typeof x' = typeof x ->
  map (fun kv => (kv.1, typeof kv.2)) (set_field fs k x') = map (fun kv => (kv.1, typeof kv.2)) fs.
Proof.
  induction fs as [|[l y] fs IH]; simpl; [done|].
  destruct (String.eqb l k) eqn:E.
  - intros [= ->] Ht. simpl. by rewrite Ht.
  - intros Hg Ht. simpl. f_equal. by apply IH.
Qed.

(** Decoding never changes the Go type of the destination. *)
Lemma decode_into_typeof (j : json) :
  forall (cur v : val), decode_into cur j = Some v -> typeof v = typeof cur.
Proof.
  induction j as [|b|z|s|l IH|kvs IH] using json_ind'; intros cur v;
    destruct cur as [c|c|c|n fs]; simpl; try discriminate; try (intros [= <-]; done).
  - destruct (int64_range z); [intros [= <-]; done|discriminate].
  - revert fs IH. induction kvs as [|[key j'] kvs IHk]; intros fs IH; simpl; [intros [= <-]; done|].
    apply Forall_cons in IH as [Hj IH]. simpl in Hj.
    destruct (field_for fs key) as [k|]; [|by apply IHk].
    destruct (get_field fs k) as [x|] eqn:Eg; [|by apply IHk].
    destruct (decode_into x j') as [x'|] eqn:Ex; [|discriminate].
    intros H. rewrite (IHk _ IH H). simpl. f_equal.
    apply (set_field_typeof _ _ x); [done|]. by apply Hj.
Qed.

Lemma last_named_name (k : string) (protos : list val) (v : val) :
  last_named k protos = Some v -> type_string (typeof v) = k.
Proof.
  induction protos as [|w ws IH]; simpl; [done|].
  destruct (last_named k ws) as [u|] eqn:E.
  - intros [= <-]. by apply IH.
  - destruct (String.eqb_spec (type_string (typeof w)) k) as [Hw|]; [|discriminate].
    intros [= <-]. done.
Qed.

(** Every name NewWebChan registers is the %T string of its type. *)
Lemma NewWebChan_registry_names (c : wconn) (d : decoder) (bufLength : Z) (protos : list val)
    (wc : endpoint) :
  NewWebChan c d bufLength protos = Some wc ->
  forall k t, ep_allowed wc !! k = Some t -> type_string t = k.
Proof.
  unfold NewWebChan. intros H. rewrite (NewNamedWebChan_shape _ _ _ _ _ H). simpl.
  intros k t. rewrite lookup_fmap. unfold allowed_types_map.
  rewrite allowed_types_map_lookup, lookup_empty.
  destruct (last_named k protos) as [v|] eqn:E; simpl; [|discriminate].
  intros [= <-]. by apply (last_named_name k protos).
Qed.

(** The values one iteration of the recv goroutine adds to [Recv]. *)
Lemma recv_iter_pushes (allowed : registry) (sd : bool) (i i' : inbound) (q q' : errchan)
    (st : rstatus) :
  recv_iter allowed sd i q = (i', q', st) ->
  exists new : list val, i_recv i' = i_recv i ++ new /\
    Forall (fun v => exists k, allowed !! k = Some (typeof v)) new.
Proof.
  assert (Hnone : forall j : inbound, i_recv j = i_recv i ->
            exists new : list val, i_recv j = i_recv i ++ new /\
              Forall (fun v => exists k, allowed !! k = Some (typeof v)) new).
  { intros j Hj. exists []. rewrite app_nil_r. split; [done|constructor]. }
  unfold recv_iter, recv_fail. destruct sd.
  { intros [= <- _ _]. by apply Hnone. }
  destruct (dec_read (i_dec i)) as [d1 [j|e|]].
  - destruct (unmarshal_string j) as [name|]; [|intros [= <- _ _]; by apply Hnone].
    destruct (createTypeInterfaceReflectPointer allowed name) as [data|] eqn:Ec;
      [|intros [= <- _ _]; by apply Hnone].
    destruct (dec_read d1) as [d2 [j2|e|]].
    + destruct (decode_into data j2) as [v|] eqn:Ej; [|intros [= <- _ _]; by apply Hnone].
      intros [= <- _ _]. exists [v]. split; [done|]. constructor; [|constructor].
      unfold createTypeInterfaceReflectPointer in Ec.
      destruct (allowed !! name) as [t|] eqn:Et; [|discriminate]. injection Ec as <-.
      exists name. rewrite Et, (decode_into_typeof _ _ _ Ej), typeof_zero. done.
    + destruct (closed_class e); intros [= <- _ _]; by apply Hnone.
    + intros [= <- _ _]. by apply Hnone.
  - destruct (closed_class e); intros [= <- _ _]; by apply Hnone.
  - intros [= <- _ _]. by apply Hnone.
Qed.

Lemma tryPushError_items (q : errchan) (err : werror) :
  eq_items (tryPushError q err) =
    eq_items q ++ (if Nat.ltb (length (eq_items q)) error_cap then [err] else []).
Proof.
  unfold tryPushError. destruct (Nat.ltb (length (eq_items q)) error_cap); simpl;
    [done|by rewrite app_nil_r].
Qed.

(** The error queue after a push: only [err] may have been added, and the
    bound of 100 is kept. *)
Lemma tryPushError_grows (q : errchan) (err : werror) :
  exists new, eq_items (tryPushError q err) = eq_items q ++ new /\ Forall (eq err) new /\
    ((length (eq_items q) <= error_cap)%nat -> (length (eq_items (tryPushError q err)) <= error_cap)%nat).
Proof.
  rewrite tryPushError_items.
  destruct (Nat.ltb_spec (length (eq_items q)) error_cap) as [Hl|Hl].
  - exists [err]. split; [done|]. split; [by constructor|]. rewrite length_app. simpl. lia.
  - exists []. split; [done|]. split; [constructor|]. rewrite app_nil_r. lia.
Qed.

Lemma send_iter_errors (allowed : registry) (ord : nat -> list string)
    (o o' : outbound) (q q' : errchan) (st : sstatus) :
  send_iter allowed ord o q = (o', q', st) ->
  q' = q \/ exists e, q' = tryPushError q (SendError e).
Proof.
  unfold send_iter. destruct (o_q o) as [|v rest].
  - destruct (o_closed o); intros [= _ <- _]; by left.
  - destruct (getAllowedTypeName _ _ _) as [k|]; [|intros [= _ <- _]; by left].
    destruct (conn_encode (o_conn o) (JStr k)) as [c1 [e1|]];
      [|destruct (conn_encode c1 (encode v)) as [c2 [e2|]]];
      intros [= _ <- _]; eauto.
Qed.

Lemma recv_iter_errors (allowed : registry) (sd : bool) (i i' : inbound) (q q' : errchan)
    (st : rstatus) :
  recv_iter allowed sd i q = (i', q', st) ->
  q' = q \/ exists e, q' = tryPushError q (RecvError e).
Proof.
  unfold recv_iter, recv_fail. destruct sd; [intros [= _ <- _]; by left|].
  destruct (dec_read (i_dec i)) as [d1 [j|e|]].
  - destruct (unmarshal_string j) as [name|]; [|intros [= _ <- _]; eauto].
    destruct (createTypeInterfaceReflectPointer allowed name) as [data|]; [|intros [= _ <- _]; eauto].
    destruct (dec_read d1) as [d2 [j2|e|]].
    + destruct (decode_into data j2); intros [= _ <- _]; eauto.
    + destruct (closed_class e); intros [= _ <- _]; eauto.
    + intros [= _ <- _]. by left.
  - destruct (closed_class e); intros [= _ <- _]; eauto.
  - intros [= _ <- _]. by left.
Qed.

Lemma errors_grow_step (P : werror -> bool) (q q' : errchan) :
  (q' = q \/ exists e, q' = tryPushError q e /\ P e = true) ->
  exists new, eq_items q' = eq_items q ++ new /\ Forall (fun w => P w = true) new /\
    ((length (eq_items q) <= error_cap)%nat -> (length (eq_items q') <= error_cap)%nat).
Proof.
  intros [->|(e & -> & He)].
  - exists []. rewrite app_nil_r. split; [done|]. split; [constructor|done].
  - destruct (tryPushError_grows q e) as (new & Hn & Hall & Hb).
    exists new. split; [done|]. split; [|done].
    eapply Forall_impl; [exact Hall|]. by intros w <-.
Qed.

Lemma errors_grow_trans (P : werror -> bool) (q1 q2 q3 : errchan) :
  (exists new, eq_items q2 = eq_items q1 ++ new /\ Forall (fun w => P w = true) new /\
    ((length (eq_items q1) <= error_cap)%nat -> (length (eq_items q2) <= error_cap)%nat)) ->
  (exists new, eq_items q3 = eq_items q2 ++ new /\ Forall (fun w => P w = true) new /\
    ((length (eq_items q2) <= error_cap)%nat -> (length (eq_items q3) <= error_cap)%nat)) ->
  exists new, eq_items q3 = eq_items q1 ++ new /\ Forall (fun w => P w = true) new /\
    ((length (eq_items q1) <= error_cap)%nat -> (length (eq_items q3) <= error_cap)%nat).
Proof.
  intros (n1 & H1 & A1 & B1) (n2 & H2 & A2 & B2).
  exists (n1 ++ n2). split; [by rewrite H2, H1, app_assoc|].
  split; [by apply Forall_app|]. auto.
Qed.

Lemma repeat_snoc {A : Type} (x : A) (n : nat) : repeat x n ++ [x] = repeat x (S n).
Proof. induction n as [|n IH]; [done|]. simpl. by rewrite IH. Qed.

(* ------------------------------------------------------------------ *)
(** ** Further properties of the code *)

(** NewWebChan registers each prototype under its %T string: every name
    in the registry is the %T string of the type registered under it. *)
Theorem NewWebChan_names_are_type_strings (c : wconn) (d : decoder) (bufLength : Z)
    (protos : list val) (wc : endpoint) :
  NewWebChan c d bufLength protos = Some wc ->
  forall (k : string) (t : ty), ep_allowed wc !! k = Some t -> type_string t = k.
Proof. apply NewWebChan_registry_names. Qed.

(** getAllowedTypeName returns [k] exactly when [k] is the first name, in
    the order the map iteration visits the names, whose registered type is
    the type of [data]. *)
Theorem getAllowedTypeName_first_match (order : list string) (allowed : registry)
    (data : val) (k : string) :
  getAllowedTypeName order allowed data = Some k <->
  exists pre post : list string,
    order = pre ++ k :: post /\ allowed !! k = Some (typeof data) /\
    Forall (fun k' => allowed !! k' <> Some (typeof data)) pre.
Proof.
  unfold getAllowedTypeName. induction order as [|k0 ks IH]; simpl.
  - split; [discriminate|]. intros (pre & post & Heq & _). destruct pre; discriminate.
  - split.
    + destruct (allowed !! k0) as [u|] eqn:E0.
      * destruct (ty_eqb u (typeof data)) eqn:Eu.
        -- intros [= <-]. apply ty_eqb_eq in Eu. subst u.
           exists [], ks. split; [done|]. split; [done|]. constructor.
        -- intros H. destruct (proj1 IH H) as (pre & post & -> & Hk & Hpre).
           exists (k0 :: pre), post. split; [done|]. split; [done|].
           constructor; [|done]. rewrite E0. intros [= ->]. by rewrite ty_eqb_refl in Eu.
      * intros H. destruct (proj1 IH H) as (pre & post & -> & Hk & Hpre).
        exists (k0 :: pre), post. split; [done|]. split; [done|].
        constructor; [by rewrite E0|done].
    + intros ([|k1 pre] & post & Heq & Hk & Hpre); simpl in Heq.
      * injection Heq as <- <-. by rewrite Hk, ty_eqb_refl.
      * injection Heq as -> Hks. apply Forall_cons in Hpre as [H0 Hpre].
        assert (Hrest : range_find ks allowed (typeof data) = Some k).
        { apply IH. exists pre, post. split; [done|]. split; done. }
        destruct (allowed !! k1) as [u|] eqn:E1; [|done].
        destruct (ty_eqb u (typeof data)) eqn:Eu; [|done].
        exfalso. apply H0. apply ty_eqb_eq in Eu. by subst u.
Qed.

(** On a WebChan built by NewWebChan, the name the send goroutine looks up
    for a value does not depend on the map iteration order: it is the %T
    string of the value's type when that name is registered for the type,
    and there is none otherwise. *)
Theorem NewWebChan_name_is_type_string (c : wconn) (d : decoder) (bufLength : Z)
    (protos : list val) (wc : endpoint) (order : list string) (data : val) :
  NewWebChan c d bufLength protos = Some wc ->
  (fst <$> map_to_list (ep_allowed wc)) ⊆ order ->
  (ep_allowed wc !! type_string (typeof data) = Some (typeof data) ->
     getAllowedTypeName order (ep_allowed wc) data = Some (type_string (typeof data))) /\
  (ep_allowed wc !! type_string (typeof data) <> Some (typeof data) ->
     getAllowedTypeName order (ep_allowed wc) data = None).
Proof.
  intros Hnew Hord. pose proof (NewWebChan_registry_names _ _ _ _ _ Hnew) as Hn.
  unfold getAllowedTypeName. split.
  - intros Hk.
    destruct (range_find_complete order _ _ _ Hk) as [k' Hk']; [by eapply key_in_order|].
    rewrite Hk'. destruct (range_find_sound _ _ _ _ Hk') as [Ha _].
    f_equal. symmetry. by apply (Hn k').
  - intros Hk. apply range_find_none. intros k Ha. apply Hk.
    by rewrite (Hn k _ Ha).
Qed.

(** When several names are registered for the type of a value, the send
    goroutine writes whichever of them the map iteration visits first:
    the iteration may visit names of other types before it ([pre]), and
    any names after it ([post]), of this type or not, are never sent.
    So every one of them is, for some iteration order, the name sent. *)
Theorem send_writes_first_visited_name (allowed : registry) (ord : nat -> list string)
    (o : outbound) (q : errchan) (v : val) (rest : list val) (k : string) (pre post : list string) :
  o_q o = v :: rest ->
  w_faults (o_conn o) = [] ->
  ord (o_iter o) = pre ++ k :: post ->
  allowed !! k = Some (typeof v) ->
  Forall (fun k' => allowed !! k' <> Some (typeof v)) pre ->
  send_iter allowed ord o q =
    (mkOutbound rest (o_closed o) (mkWconn (w_out (o_conn o) ++ frame k v) []) (S (o_iter o)),
     q, SRunning).
Proof.
  intros Hq Hf Hord Hk Hpre. apply send_iter_registered; [done|done|].
  unfold getAllowedTypeName. by apply (range_find_first _ pre post).
Qed.

(** The recv goroutine only appends to [Recv], and every value it
    delivers has a type registered under some name. *)
Theorem recv_delivers_registered_types (allowed : registry) (sd : bool) (n : nat)
    (i i' : inbound) (q q' : errchan) (st : rstatus) :
  recv_run allowed sd n i q = (i', q', st) ->
  exists new : list val, i_recv i' = i_recv i ++ new /\
    Forall (fun v => exists k, allowed !! k = Some (typeof v)) new.
Proof.
  revert i q. induction n as [|n IH]; intros i q; simpl.
  - intros [= <- _ _]. exists []. rewrite app_nil_r. split; [done|constructor].
  - destruct (recv_iter allowed sd i q) as [[i1 q1] st1] eqn:Hit.
    destruct (recv_iter_pushes _ _ _ _ _ _ _ Hit) as (n1 & H1 & A1).
    destruct st1.
    + intros H. destruct (IH _ _ H) as (n2 & H2 & A2).
      exists (n1 ++ n2). split; [by rewrite H2, H1, app_assoc|]. by apply Forall_app.
    + intros [= <- _ _]. by exists n1.
    + intros [= <- _ _]. by exists n1.
Qed.

(** For frames with registered names, the recv goroutine reports exactly
    one Recv error (an UnmarshalTypeError) per frame whose payload does not
    fit the registered type, in order, when the error channel has room;
    such a frame is consumed whole, so the frames after it decode as usual. *)
Theorem recv_one_error_per_bad_payload (allowed : registry) (frames : list (string * json)) :
  forall (i : inbound) (q : errchan) (later : list rd_event) (endc : option goerr),
  Forall (fun kj => is_Some (allowed !! kj.1)) frames ->
  i_dec i = mkDecoder (frames_input frames ++ later) endc None ->
  (length (eq_items q) + length frames <= error_cap)%nat ->
  recv_run allowed false (length frames) i q =
    (mkInbound (mkDecoder later endc None) (i_recv i ++ frames_decoded allowed frames)
       (i_recv_closes i),
     mkErrchan (eq_items q ++ repeat (RecvError ErrUnmarshalType) (length (bad_payloads allowed frames)))
       (eq_stdout q),
     RRunning).
Proof.
  unfold frames_input, frames_decoded.
  induction frames as [|[k j] frames IH]; intros i q later endc Hreg Hd Hroom.
  - simpl. destruct i as [d r c], q as [its out]. simpl in *. subst d. by rewrite !app_nil_r.
  - apply Forall_cons in Hreg as [[t Ht] Hreg]. simpl in Ht, Hroom.
    simpl. rewrite Ht. simpl.
    unfold recv_iter. rewrite Hd. simpl.
    unfold createTypeInterfaceReflectPointer. rewrite Ht. simpl.
    destruct (decode_into (zero t) j) as [v|] eqn:Ej.
    + rewrite (IH (mkInbound (mkDecoder (concat (map (fun kj => [RVal (JStr kj.1); RVal kj.2]) frames) ++ later) endc None)
                     (i_recv i ++ [v]) (i_recv_closes i)) q later endc Hreg eq_refl)
        by lia.
      simpl. by rewrite <- app_assoc.
    + unfold tryPushError at 1.
      destruct (Nat.ltb_spec (length (eq_items q)) error_cap) as [Hl|Hl]; [|lia].
      rewrite (IH (with_dec (mkDecoder (concat (map (fun kj => [RVal (JStr kj.1); RVal kj.2]) frames) ++ later) endc None) i)
                  (mkErrchan (eq_items q ++ [RecvError ErrUnmarshalType]) (eq_stdout q)) later endc Hreg eq_refl)
        by (simpl; rewrite length_app; simpl; lia).
      simpl. by rewrite <- app_assoc.
Qed.

(** A frame whose payload is JSON [null] delivers the zero value of the
    registered type, not an error. *)
Theorem null_payload_delivers_zero (allowed : registry) (i : inbound) (q : errchan)
    (k : string) (t : ty) (later : list rd_event) (endc : option goerr) :
  i_dec i = mkDecoder (RVal (JStr k) :: RVal JNull :: later) endc None ->
  allowed !! k = Some t ->
  recv_iter allowed false i q =
    (mkInbound (mkDecoder later endc None) (i_recv i ++ [zero t]) (i_recv_closes i), q, RRunning).
Proof. intros Hd Hk. by apply (recv_iter_frame _ _ _ k JNull later endc t). Qed.

(** The send goroutine only ever reports Send errors and the recv
    goroutine only Recv errors; both only append to the error channel,
    which never holds more than 100 errors. *)
Theorem goroutines_report_own_errors (allowed : registry) (ord : nat -> list string) (sd : bool) :
  (forall (n : nat) (o o' : outbound) (q q' : errchan) (st : sstatus),
     send_run allowed ord n o q = (o', q', st) ->
     exists new, eq_items q' = eq_items q ++ new /\ Forall (fun w => is_send_error w = true) new /\
       ((length (eq_items q) <= error_cap)%nat -> (length (eq_items q') <= error_cap)%nat)) /\
  (forall (n : nat) (i i' : inbound) (q q' : errchan) (st : rstatus),
     recv_run allowed sd n i q = (i', q', st) ->
     exists new, eq_items q' = eq_items q ++ new /\ Forall (fun w => is_recv_error w = true) new /\
       ((length (eq_items q) <= error_cap)%nat -> (length (eq_items q') <= error_cap)%nat)).
Proof.
  split.
  - induction n as [|n IH]; intros o o' q q' st; simpl.
    + intros [= _ <- _]. apply errors_grow_step. by left.
    + destruct (send_iter allowed ord o q) as [[o1 q1] st1] eqn:Hit.
      assert (Hs : exists new, eq_items q1 = eq_items q ++ new /\
                     Forall (fun w => is_send_error w = true) new /\
                     ((length (eq_items q) <= error_cap)%nat -> (length (eq_items q1) <= error_cap)%nat)).
      { apply errors_grow_step. destruct (send_iter_errors _ _ _ _ _ _ _ Hit) as [->|[e ->]];
          [by left|right; by exists (SendError e)]. }
      destruct st1; intros H; [by eapply errors_grow_trans, IH| | |];
        injection H as _ <- _; exact Hs.
  - induction n as [|n IH]; intros i i' q q' st; simpl.
    + intros [= _ <- _]. apply errors_grow_step. by left.
    + destruct (recv_iter allowed sd i q) as [[i1 q1] st1] eqn:Hit.
      assert (Hs : exists new, eq_items q1 = eq_items q ++ new /\
                     Forall (fun w => is_recv_error w = true) new /\
                     ((length (eq_items q) <= error_cap)%nat -> (length (eq_items q1) <= error_cap)%nat)).
      { apply errors_grow_step. destruct (recv_iter_errors _ _ _ _ _ _ _ Hit) as [->|[e ->]];
          [by left|right; by exists (RecvError e)]. }
      destruct st1; intros H; [by eapply errors_grow_trans, IH| |];
        injection H as _ <- _; exact Hs.
Qed.

(** Once Close has run, the recv goroutine starts no further read: its
    next iteration returns and closes [Recv], and the input still pending
    on the connection is never delivered. *)
Theorem close_stops_recv (wc wc' : endpoint) (n : nat) (q : errchan) :
  ep_shutdown wc = false ->
  Close wc = Some wc' ->
  recv_run (ep_allowed wc') (ep_shutdown wc') (S n) (ep_in wc') q =
    (mkInbound (i_dec (ep_in wc)) (i_recv (ep_in wc)) (S (i_recv_closes (ep_in wc))), q, RStopped).
Proof.
  intros Hs Hc. unfold Close in Hc. rewrite Hs in Hc. simpl in Hc.
  destruct (o_closed (ep_out wc)); simpl in Hc; [discriminate|].
  injection Hc as <-. reflexivity.
Qed.

(** A sticky decoder error that is not closed-class (a syntax error, an
    unexpected end of a value) makes the recv goroutine report the same
    Recv error on every iteration for ever, without reading or delivering
    anything else. *)
Theorem sticky_error_repeats (allowed : registry) (e : goerr) (n : nat) :
  forall (i : inbound) (q : errchan),
  d_err (i_dec i) = Some e -> closed_class e = false ->
  recv_run allowed false n i q = (i, push_n q (RecvError e) n, RRunning).
Proof.
  induction n as [|n IH]; intros i q He Hc; [done|].
  unfold push_n. rewrite Nat.iter_succ_r.
  fold (push_n (tryPushError q (RecvError e)) (RecvError e) n).
  simpl. unfold recv_iter. simpl. unfold dec_read. rewrite He. simpl.
  unfold recv_fail. rewrite Hc.
  replace (with_dec (i_dec i) i) with i by (by destruct i).
  by rewrite IH.
Qed.

(** Pushing an error [n] times in a row: the error channel takes copies
    until it holds 100 errors, and every further push prints one line
    instead. *)
Theorem tryPushError_repeated (q : errchan) (err : werror) (n : nat) :
  push_n q err n =
    mkErrchan (eq_items q ++ repeat err (Nat.min n (error_cap - length (eq_items q))))
      (eq_stdout q ++ repeat "Error channel full, should probably check it more frequently"
                            (n - (error_cap - length (eq_items q)))).
Proof.
  induction n as [|n IH].
  - destruct q as [its out]. simpl. by rewrite !app_nil_r.
  - unfold push_n in *. simpl Nat.iter. rewrite IH. unfold tryPushError. cbn [eq_items eq_stdout].
    rewrite length_app, repeat_length.
    destruct (Nat.ltb_spec (length (eq_items q) + Nat.min n (error_cap - length (eq_items q))) error_cap)
      as [Hl|Hl].
    + replace (n - (error_cap - length (eq_items q)))%nat with 0%nat in * by lia.
      replace (S n - (error_cap - length (eq_items q)))%nat with 0%nat by lia.
      replace (Nat.min (S n) (error_cap - length (eq_items q)))
        with (S (Nat.min n (error_cap - length (eq_items q)))) by lia.
      by rewrite <- app_assoc, repeat_snoc.
    + replace (Nat.min (S n) (error_cap - length (eq_items q)))
        with (Nat.min n (error_cap - length (eq_items q))) by lia.
      replace (S n - (error_cap - length (eq_items q)))%nat
        with (S (n - (error_cap - length (eq_items q)))) by lia.
      by rewrite <- app_assoc, repeat_snoc.
Qed.

(** The instance the receiver decodes into is the zero value of the
    prototype's type: the field values of a NewNamedWebChan prototype are
    never used, and a name not in the map gives no instance. *)
Theorem recv_instance_is_zero_of_prototype (c : wconn) (d : decoder) (bufLength : Z)
    (allowedTypes : gmap string val) (wc : endpoint) (k : string) :
  NewNamedWebChan c d bufLength allowedTypes = Some wc ->
  createTypeInterfaceReflectPointer (ep_allowed wc) k = (fun v => zero (typeof v)) <$> allowedTypes !! k.
Proof.
  intros H. rewrite (NewNamedWebChan_shape _ _ _ _ _ H). simpl.
  unfold createTypeInterfaceReflectPointer. rewrite lookup_fmap.
  by destruct (allowedTypes !! k).
Qed.

(* ------------------------------------------------------------------ *)
(** ** The further properties at sample inputs *)

Lemma NewWebChan_names_are_type_strings_witness :
  NewWebChan empty_wconn open_decoder 10
    [VString "strings"; VStruct "webchan.testType" [("A", VInt 0); ("B", VString "")]] = Some sample_wc /\
  ep_allowed sample_wc !! "webchan.testType" = Some testType_ty /\
  type_string testType_ty = "webchan.testType".
Proof.
  split; [reflexivity|]. split; [reflexivity|].
  apply (NewWebChan_names_are_type_strings empty_wconn open_decoder 10
           [VString "strings"; VStruct "webchan.testType" [("A", VInt 0); ("B", VString "")]] sample_wc);
    reflexivity.
Defined.

Lemma NewWebChan_name_is_type_string_witness :
  getAllowedTypeName (sample_ord 0) (ep_allowed sample_wc) testType_val =
    Some (type_string (typeof testType_val)).
Proof.
  destruct (NewWebChan_name_is_type_string empty_wconn open_decoder 10
              [VString "strings"; VStruct "webchan.testType" [("A", VInt 0); ("B", VString "")]]
              sample_wc (sample_ord 0) testType_val) as [H _].
  - reflexivity.
  - by intros x Hx.
  - apply H. reflexivity.
Defined.

Lemma send_writes_first_visited_name_witness :
  send_iter (typeof <$> sample_named) (fun _ => ["count"; "greeting"; "name"])
    (mkOutbound [VString "hi"] false empty_wconn 0) sample_errs =
    (mkOutbound [] false (mkWconn ([] ++ frame "greeting" (VString "hi")) []) 1, sample_errs, SRunning) /\
  send_iter (typeof <$> sample_named) (fun _ => ["name"; "count"; "greeting"])
    (mkOutbound [VString "hi"] false empty_wconn 0) sample_errs =
    (mkOutbound [] false (mkWconn ([] ++ frame "name" (VString "hi")) []) 1, sample_errs, SRunning).
Proof.
  split.
  - apply (send_writes_first_visited_name (typeof <$> sample_named) (fun _ => ["count"; "greeting"; "name"])
             (mkOutbound [VString "hi"] false empty_wconn 0) sample_errs (VString "hi") []
             "greeting" ["count"] ["name"]); try reflexivity.
    constructor; [|constructor]. intros H. vm_compute in H. discriminate H.
  - apply (send_writes_first_visited_name (typeof <$> sample_named) (fun _ => ["name"; "count"; "greeting"])
             (mkOutbound [VString "hi"] false empty_wconn 0) sample_errs (VString "hi") []
             "name" [] ["count"; "greeting"]); try reflexivity.
    constructor.
Defined.

Lemma recv_delivers_registered_types_witness :
  exists new : list val,
    i_recv (recv_run sample_reg false 2 (ep_in sample_peer) sample_errs).1.1 =
      i_recv (ep_in sample_peer) ++ new /\
    Forall (fun v => exists k, sample_reg !! k = Some (typeof v)) new.
Proof.
  apply (recv_delivers_registered_types sample_reg false 2 (ep_in sample_peer)
           (recv_run sample_reg false 2 (ep_in sample_peer) sample_errs).1.1 sample_errs
           (recv_run sample_reg false 2 (ep_in sample_peer) sample_errs).1.2
           (recv_run sample_reg false 2 (ep_in sample_peer) sample_errs).2).
  reflexivity.
Defined.

Lemma recv_one_error_per_bad_payload_witness :
  recv_run sample_reg false 2
    (mkInbound (mkDecoder (frames_input [("string", JNum 3); ("string", JStr "ok")]) None None) [] 0)
    sample_errs =
  (mkInbound (mkDecoder [] None None) [VString "ok"] 0, mkErrchan [RecvError ErrUnmarshalType] [], RRunning).
Proof.
  apply (recv_one_error_per_bad_payload sample_reg [("string", JNum 3); ("string", JStr "ok")]
           (mkInbound (mkDecoder (frames_input [("string", JNum 3); ("string", JStr "ok")]) None None) [] 0)
           sample_errs [] None).
  - constructor; [by eexists|]. constructor; [by eexists|]. constructor.
  - reflexivity.
  - simpl. unfold error_cap. lia.
Defined.

Lemma null_payload_delivers_zero_witness :
  recv_iter sample_reg false
    (mkInbound (mkDecoder [RVal (JStr "webchan.testType"); RVal JNull] None None) [] 0) sample_errs =
  (mkInbound (mkDecoder [] None None) ([] ++ [zero testType_ty]) 0, sample_errs, RRunning).
Proof.
  apply (null_payload_delivers_zero sample_reg
           (mkInbound (mkDecoder [RVal (JStr "webchan.testType"); RVal JNull] None None) [] 0)
           sample_errs "webchan.testType" testType_ty [] None); reflexivity.
Defined.

Lemma goroutines_report_own_errors_witness :
  (exists new : list werror,
     eq_items (send_run sample_reg sample_ord 2
                 (mkOutbound [VString "a"; VString "b"] false sample_faulty 0) sample_errs).1.2 =
       eq_items sample_errs ++ new /\
     Forall (fun w => is_send_error w = true) new /\
     ((length (eq_items sample_errs) <= error_cap)%nat ->
      (length (eq_items (send_run sample_reg sample_ord 2
                 (mkOutbound [VString "a"; VString "b"] false sample_faulty 0) sample_errs).1.2)
         <= error_cap)%nat)) /\
  (exists new : list werror,
     eq_items (recv_run sample_reg false 2
                 (mkInbound (mkDecoder [RVal (JStr "point"); RVal (JNum 1)] None None) [] 0) sample_errs).1.2 =
       eq_items sample_errs ++ new /\
     Forall (fun w => is_recv_error w = true) new /\
     ((length (eq_items sample_errs) <= error_cap)%nat ->
      (length (eq_items (recv_run sample_reg false 2
                 (mkInbound (mkDecoder [RVal (JStr "point"); RVal (JNum 1)] None None) [] 0) sample_errs).1.2)
         <= error_cap)%nat)).
Proof.
  destruct (goroutines_report_own_errors sample_reg sample_ord false) as [Hs Hr]. split.
  - apply (Hs 2%nat (mkOutbound [VString "a"; VString "b"] false sample_faulty 0)
              (send_run sample_reg sample_ord 2
                 (mkOutbound [VString "a"; VString "b"] false sample_faulty 0) sample_errs).1.1
              sample_errs
              (send_run sample_reg sample_ord 2
                 (mkOutbound [VString "a"; VString "b"] false sample_faulty 0) sample_errs).1.2
              (send_run sample_reg sample_ord 2
                 (mkOutbound [VString "a"; VString "b"] false sample_faulty 0) sample_errs).2).
    reflexivity.
  - apply (Hr 2%nat (mkInbound (mkDecoder [RVal (JStr "point"); RVal (JNum 1)] None None) [] 0)
              (recv_run sample_reg false 2
                 (mkInbound (mkDecoder [RVal (JStr "point"); RVal (JNum 1)] None None) [] 0) sample_errs).1.1
              sample_errs
              (recv_run sample_reg false 2
                 (mkInbound (mkDecoder [RVal (JStr "point"); RVal (JNum 1)] None None) [] 0) sample_errs).1.2
              (recv_run sample_reg false 2
                 (mkInbound (mkDecoder [RVal (JStr "point"); RVal (JNum 1)] None None) [] 0) sample_errs).2).
    reflexivity.
Defined.

Lemma close_stops_recv_witness :
  exists wc' : endpoint,
    Close sample_peer = Some wc' /\
    recv_run (ep_allowed wc') (ep_shutdown wc') 5 (ep_in wc') sample_errs =
      (mkInbound (i_dec (ep_in sample_peer)) [] 1, sample_errs, RStopped).
Proof.
  eexists. split; [reflexivity|].
  apply (close_stops_recv sample_peer); reflexivity.
Defined.

Lemma sticky_error_repeats_witness :
  recv_run sample_reg false 3 (mkInbound (mkDecoder [RVal (JStr "string")] None (Some ErrSyntax)) [] 0)
    sample_errs =
  (mkInbound (mkDecoder [RVal (JStr "string")] None (Some ErrSyntax)) [] 0,
   push_n sample_errs (RecvError ErrSyntax) 3, RRunning).
Proof.
  apply (sticky_error_repeats sample_reg ErrSyntax 3); reflexivity.
Defined.

Lemma recv_instance_is_zero_of_prototype_witness :
  exists wc : endpoint,
    NewNamedWebChan empty_wconn open_decoder 10 {[ "point" := VStruct "main.P" [("X", VInt 5)] ]} = Some wc /\
    createTypeInterfaceReflectPointer (ep_allowed wc) "point" =
      (fun v => zero (typeof v)) <$> ({[ "point" := VStruct "main.P" [("X", VInt 5)] ]} : gmap string val) !! "point".
Proof.
  eexists. split; [reflexivity|].
  apply (recv_instance_is_zero_of_prototype empty_wconn open_decoder 10); reflexivity.
Defined.
